(** * Calculadora YLW: box selection by stacking height

    A shallow embedding of [app.py]: the slug helpers, the item catalogue,
    the normaliser [calcular_itens], the estimator [volume_para_box], the
    selector [escolher_box_por_altura] and the part of the route handler
    [index] that reads the quantities of the form and calls the two.

    Conventions of the embedding.
    - A Python [float] is an exact rational ([Q]): a literal is the decimal
      number written, [+] and [*] are exact, comparison and floor division
      are those of the rationals.  Binary rounding, overflow, infinities and
      NaN are outside the model.  Results are compared with [==] ([Qeq]).
    - A Python [int] is a [Z].
    - A [dict] is an association list in insertion order, keys unique.
    - A [str] is a [string] of ASCII characters.  The program applies
      [slugify] to the keys of the catalogue only, which are ASCII, and on
      ASCII text [remove_acentos] changes nothing.
    - An exception is a value: a function that can raise returns a [res].
    - The lines of [detalhes] and the reason of an infeasibility are kept as
      the values their text is built from.
    - [int(raw)] on the text of a form field is a parameter, [py_int]. *)

From Stdlib Require Import ZArith QArith Qround List Bool Ascii String Lia Lqa.
From Stdlib Require Import Permutation Sorted SpecFloat.
Import ListNotations.

Local Open Scope string_scope.
Local Open Scope list_scope.
Local Open Scope Z_scope.

(** ** Exceptions *)

Inductive exn : Type :=
| ZeroDivisionError
| KeyError (key : string)
| IndexError
| OverflowError
| ValueError.

Inductive res (A : Type) : Type :=
| Ret (a : A)
| Raise (e : exn).

Arguments Ret {A} a.
Arguments Raise {A} e.

Definition bind {A B : Type} (m : res A) (k : A -> res B) : res B :=
  match m with
  | Ret a => k a
  | Raise e => Raise e
  end.

Notation "x <- m ;; k" := (bind m (fun x => k))
  (at level 61, m at next level, right associativity).
Notation "' p <- m ;; k" := (bind m (fun x => let 'p := x in k))
  (at level 61, p pattern, m at next level, right associativity).

(** ** Python strings (ASCII) *)

Module Str.

(** [str.isspace] on ASCII, which is also what [\s] matches. *)
Definition isspace (c : ascii) : bool :=
  let n := nat_of_ascii c in
  ((9 <=? n) && (n <=? 13) || (28 <=? n) && (n <=? 32))%nat.

Definition lower_char (c : ascii) : ascii :=
  let n := nat_of_ascii c in
  if ((65 <=? n) && (n <=? 90))%nat then ascii_of_nat (n + 32) else c.

Definition is_az09 (c : ascii) : bool :=
  let n := nat_of_ascii c in
  ((97 <=? n) && (n <=? 122) || (48 <=? n) && (n <=? 57))%nat.

Fixpoint dropwhile (p : ascii -> bool) (l : list ascii) : list ascii :=
  match l with
  | [] => []
  | c :: r => if p c then dropwhile p r else l
  end.

(** [s.strip()] with the set of characters given by [p]. *)
Definition strip_by (p : ascii -> bool) (l : list ascii) : list ascii :=
  rev (dropwhile p (rev (dropwhile p l))).

(** [s.replace(old, new)] for a one-character [old]. *)
Definition replace1 (old new : ascii) (l : list ascii) : list ascii :=
  map (fun c => if Ascii.eqb c old then new else c) l.

(** [s.replace("  ", " ")]: left to right, occurrences do not overlap. *)
Fixpoint replace_2sp (l : list ascii) : list ascii :=
  match l with
  | [] => []
  | a :: t =>
      match t with
      | b :: r =>
          if Ascii.eqb a " " && Ascii.eqb b " "
          then " "%char :: replace_2sp r
          else a :: replace_2sp t
      | [] => [a]
      end
  end.

(** [re.sub(r"\s+", "_", s)]; [in_run] says the previous character was
    white space, already replaced. *)
Fixpoint sub_spaces (in_run : bool) (l : list ascii) : list ascii :=
  match l with
  | [] => []
  | c :: r =>
      if isspace c
      then if in_run then sub_spaces true r else "_"%char :: sub_spaces true r
      else c :: sub_spaces false r
  end.

Definition strip (s : string) : string :=
  string_of_list_ascii (strip_by isspace (list_ascii_of_string s)).

End Str.

(** ** Helpers *)

(** On ASCII text NFD normalisation leaves every character alone and no
    character is of category Mn. *)
Definition remove_acentos (s : string) : string := s.

Definition slug_char (c : ascii) : bool :=
  Str.is_az09 c || Str.isspace c
  || Ascii.eqb c "-" || Ascii.eqb c "_" || Ascii.eqb c "/".

Definition slugify (s : string) : string :=
  let s1 := remove_acentos
              (string_of_list_ascii
                 (map Str.lower_char
                    (Str.strip_by Str.isspace (list_ascii_of_string s)))) in
  let s2 := filter slug_char (list_ascii_of_string s1) in
  let s3 := Str.replace_2sp
              (Str.replace1 "-" " " (Str.replace1 "/" " " s2)) in
  let s4 := Str.strip_by (fun c => Ascii.eqb c "_") (Str.sub_spaces false s3) in
  string_of_list_ascii s4.

(** ** Dictionaries in insertion order *)

Section Dict.
Context {V : Type}.

Fixpoint dict_get (k : string) (d : list (string * V)) : option V :=
  match d with
  | [] => None
  | (k', v) :: r => if String.eqb k k' then Some v else dict_get k r
  end.

(** [d[k] = v]: an existing key keeps its place. *)
Fixpoint dict_set (k : string) (v : V) (d : list (string * V))
  : list (string * V) :=
  match d with
  | [] => [(k, v)]
  | (k', v') :: r =>
      if String.eqb k k' then (k, v) :: r else (k', v') :: dict_set k v r
  end.

Definition keys (d : list (string * V)) : list string := map fst d.
End Dict.

(** ** Catálogo *)

Record meta : Type := mk_meta {
  meta_m3 : Q;
  meta_empilhavel : option bool;
  meta_max_emp : option Z;
  meta_altura : option Q
}.

Definition nao_empilha (v h : Q) : meta := mk_meta v (Some false) None (Some h).
Definition empilha (v : Q) (n : Z) (h : Q) : meta :=
  mk_meta v (Some true) (Some n) (Some h).

Definition catalogo : list (string * meta) :=
  [ ("sofa",                  nao_empilha (250 # 100) (100 # 100));
    ("geladeira",             nao_empilha (120 # 100) (180 # 100));
    ("mesa",                  nao_empilha (180 # 100) (75 # 100));
    ("cadeira de jantar",     empilha (50 # 100) 4 (100 # 100));
    ("caixa pequena",         empilha (10 # 100) 6 (40 # 100));
    ("caixa media",           empilha (30 # 100) 5 (50 # 100));
    ("caixa grande",          empilha (50 # 100) 4 (60 # 100));
    ("fogao",                 nao_empilha (30 # 100) (90 # 100));
    ("cama box",              nao_empilha (160 # 100) (60 # 100));
    ("colchao de casal",      empilha (80 # 100) 3 (25 # 100));
    ("colchao de solteiro",   empilha (50 # 100) 3 (25 # 100));
    ("maquina de lavar",      nao_empilha (30 # 100) (100 # 100));
    ("mesa de jantar",        nao_empilha (84 # 100) (75 # 100));
    ("rack",                  nao_empilha (22 # 100) (55 # 100));
    ("sofa 2 lugares",        nao_empilha (118 # 100) (90 # 100));
    ("sofa 3 lugares",        nao_empilha (234 # 100) (100 # 100));
    ("tv",                    nao_empilha (41 # 100) (70 # 100));
    ("escrivaninha",          nao_empilha (41 # 100) (75 # 100));
    ("cadeira de escritorio", empilha (30 # 100) 3 (100 # 100));
    ("poltrona",              nao_empilha (53 # 100) (100 # 100)) ].

(** ** Numbers *)

Definition Qlt_bool (x y : Q) : bool := negb (Qle_bool y x).

(** [max(a, b)] keeps [a] unless [b > a]. *)
Definition py_max (a b : Q) : Q := if Qlt_bool a b then b else a.

(** [int(a // b)] on floats. *)
Definition floordiv_int (a b : Q) : res Z :=
  if Qeq_bool b 0 then Raise ZeroDivisionError else Ret (Qfloor (a / b)%Q).

(** [math.ceil(n / d)] on ints, for [d >= 1]. *)
Definition ceil_div (n d : Z) : Z := Qceiling (inject_Z n / inject_Z d)%Q.

Definition get_or {A : Type} (o : option A) (d : A) : A :=
  match o with
  | Some a => a
  | None => d
  end.

(** ** Loops and sorting *)

(** [for x in l: s = body(s, x)], stopping at the first exception. *)
Fixpoint for_each {A S : Type} (body : S -> A -> res S) (l : list A) (s : S)
  : res S :=
  match l with
  | [] => Ret s
  | x :: r => s' <- body s x ;; for_each body r s'
  end.

Section Sort.
Context {A : Type} (lt : A -> A -> bool).

Fixpoint insert (x : A) (l : list A) : list A :=
  match l with
  | [] => [x]
  | y :: r => if lt y x then y :: insert x r else x :: l
  end.

(** [sorted(l)] and [l.sort()]: the stable sort, which compares with [<]
    only.  Equal elements keep the order they had in [l]. *)
Fixpoint py_sorted (l : list A) : list A :=
  match l with
  | [] => []
  | x :: r => insert x (py_sorted r)
  end.
End Sort.

(** ** Lista para a UI *)

Record item_ui : Type := mk_item_ui {
  ui_nome : string;
  ui_slug : string;
  ui_m3 : Q;
  ui_empilhavel : bool;
  ui_max_emp : Z;
  ui_altura : Q
}.

Definition itens_ui : list item_ui :=
  py_sorted (fun x y => String.ltb (ui_nome x) (ui_nome y))
    (map (fun '(nome, meta) =>
            {| ui_nome := nome;
               ui_slug := slugify nome;
               ui_m3 := meta_m3 meta;
               ui_empilhavel := get_or (meta_empilhavel meta) false;
               ui_max_emp := get_or (meta_max_emp meta) 1;
               ui_altura := get_or (meta_altura meta) (5 # 10) |})
         catalogo).

(** ** Boxes *)

(** A row of [df_boxes].  The table is read from [Boxes.xlsx] when the
    program starts; the functions below take it as an argument. *)
Record box : Type := mk_box {
  Box : string;
  Largura : Q;
  Comprimento : Q;
  Altura : Q;
  Metros_Cubicos : Q
}.

(** ** Cálculo com empilhamento por altura do box *)

Record item : Type := mk_item {
  nome : string;
  qtd : Z;
  m3 : Q;
  empilhavel : bool;
  max_emp : Z;
  altura : Q
}.

(** [{slugify(k): k for k in catalogo.keys()}], for any catalogue. *)
Definition slugs_de (cat : list (string * meta)) : list (string * string) :=
  fold_left (fun d k => dict_set (slugify k) k d) (keys cat) [].

Definition slug_to_nome : list (string * string) := slugs_de catalogo.

(** The body of the loop of [calcular_itens] over a catalogue [cat] and its
    table of slugs [s2n]. *)
Definition calcular_passo (cat : list (string * meta))
  (s2n : list (string * string)) (itens : list item) (e : string * Z)
  : res (list item) :=
  let '(slug, q) := e in
  if (q <=? 0)%Z then Ret itens
  else
    match dict_get slug s2n with
    | None => Ret itens
    | Some n =>
        if String.eqb n "" then Ret itens
        else
          match dict_get n cat with
          | None => Raise (KeyError n)
          | Some meta =>
              Ret (itens ++
                   [ {| nome := n;
                        qtd := q;
                        m3 := meta_m3 meta;
                        empilhavel := get_or (meta_empilhavel meta) false;
                        max_emp := get_or (meta_max_emp meta) 1;
                        altura := get_or (meta_altura meta) (5 # 10) |} ])
          end
    end.

Definition calcular_itens (qtd_por_slug : list (string * Z)) : res (list item) :=
  for_each (calcular_passo catalogo slug_to_nome) qtd_por_slug [].

(** A line of [detalhes].  The source renders each line as text with the
    numbers printed to two decimals; the embedding keeps the values that the
    text is built from. *)
Inductive detalhe : Type :=
| DetPilhas (q : Z) (n : string) (pilhas : Z) (v_item : Q)
    (camadas_por_pilha : Z) (altura_pilha : Q)
| DetNaoEmpilha (q : Z) (n : string) (v_item : Q) (alt : Q).

(** The result of [volume_para_box]: [(total, max_alt_uso, detalhes)], or
    [(None, None, motivo)] where [motivo] is the text
    "<nome> não cabe em altura (<alt> m) no box de <altura_box> m". *)
Inductive estimativa : Type :=
| Estimado (total max_alt_uso : Q) (detalhes : list detalhe)
| NaoCabe (n : string) (alt altura_box : Q).

Definition folga_padrao : Q := 15 # 100.

Fixpoint volume_loop (itens : list item) (altura_box : Q)
  (total max_alt_uso : Q) (detalhes : list detalhe) (folga : Q)
  : res estimativa :=
  match itens with
  | [] => Ret (Estimado (total * (1 + folga))%Q max_alt_uso detalhes)
  | it :: resto =>
      let q := qtd it in
      let v := m3 it in
      let alt := altura it in
      if empilhavel it then
        c <- floordiv_int altura_box alt ;;
        let camadas_por_pilha := Z.min c (max_emp it) in
        if (camadas_por_pilha <? 1)%Z then Ret (NaoCabe (nome it) alt altura_box)
        else
          let pilhas := ceil_div q camadas_por_pilha in
          let v_item := (inject_Z pilhas * v)%Q in
          let altura_pilha := (inject_Z (Z.min camadas_por_pilha q) * alt)%Q in
          volume_loop resto altura_box
            (total + v_item)%Q (py_max max_alt_uso altura_pilha)
            (detalhes ++ [DetPilhas q (nome it) pilhas v_item
                            camadas_por_pilha altura_pilha])
            folga
      else
        let v_item := (inject_Z q * v)%Q in
        volume_loop resto altura_box
          (total + v_item)%Q (py_max max_alt_uso alt)
          (detalhes ++ [DetNaoEmpilha q (nome it) v_item alt])
          folga
  end.

Definition volume_para_box (itens : list item) (altura_box : Q) (folga : Q)
  : res estimativa :=
  volume_loop itens altura_box 0 0 [] folga.

Definition candidato : Type := (Q * Q * list detalhe * box)%type.

Definition cand_vol (t : candidato) : Q := fst (fst (fst t)).
Definition cand_box (t : candidato) : box := snd t.

(** [<] on the sort keys [(t[3]["Metros Cubicos"], t[0])]: tuples compare at
    the first position where they are not equal. *)
Definition chave_lt (t u : candidato) : bool :=
  let ct := Metros_Cubicos (cand_box t) in
  let cu := Metros_Cubicos (cand_box u) in
  if Qeq_bool ct cu then
    if Qeq_bool (cand_vol t) (cand_vol u) then false
    else Qlt_bool (cand_vol t) (cand_vol u)
  else Qlt_bool ct cu.

Definition motivo_nenhum_box : string :=
  "Nenhum box atende ao volume/altura após simular empilhamento pela altura do box.".

(** The result of [escolher_box_por_altura]:
    [(box_escolhido, volume_calc, altura_usada, detalhes)] or
    [(None, None, None, motivo)]. *)
Inductive escolha : Type :=
| Escolhido (b : box) (volume_calc altura_usada : Q) (detalhes : list detalhe)
| Nenhum (motivo : string).

Definition escolher_passo (itens : list item) (candidatos : list candidato)
  (b : box) : res (list candidato) :=
  let altura_box := Altura b in
  r <- volume_para_box itens altura_box folga_padrao ;;
  match r with
  | NaoCabe _ _ _ => Ret candidatos
  | Estimado vol alt_uso detalhes =>
      if Qle_bool vol (Metros_Cubicos b)
      then Ret (candidatos ++ [(vol, alt_uso, detalhes, b)])
      else Ret candidatos
  end.

Definition escolher_box_por_altura (df_boxes : list box) (itens : list item)
  : res escolha :=
  candidatos <- for_each (escolher_passo itens) df_boxes [] ;;
  match candidatos with
  | [] => Ret (Nenhum motivo_nenhum_box)
  | _ :: _ =>
      match py_sorted chave_lt candidatos with
      | [] => Raise IndexError
      | (vol, alt_uso, detalhes, b) :: _ => Ret (Escolhido b vol alt_uso detalhes)
      end
  end.

(** ** Rota principal: reading the form *)

(** [(request.form.get(field, "0") or "0").strip()] for the field of one
    item; [form] is [request.form]. *)
Definition raw_qtd (form : list (string * string)) (slug : string) : string :=
  let field := ("qty_" ++ slug)%string in
  let v := get_or (dict_get field form) "0" in
  Str.strip (if String.eqb v "" then "0" else v).

Section Index.

(** [int(raw)] on text: [None] when Python raises [ValueError]. *)
Variable py_int : string -> option Z.

(** The quantity read for one item of [itens_ui]: [int(raw)], 0 when that
    raises, and never less than 0. *)
Definition ler_qtd (form : list (string * string)) (slug : string) : Z :=
  let raw := raw_qtd form slug in
  let n := match py_int raw with
           | Some n => n
           | None => 0
           end in
  Z.max 0 n.

Definition ler_form (form : list (string * string)) : list (string * Z) :=
  fold_left (fun d it => dict_set (ui_slug it) (ler_qtd form (ui_slug it)) d)
    itens_ui [].

(** The POST branch of [index] up to the selection. *)
Definition index_post (df_boxes : list box) (form : list (string * string))
  : res (list item * escolha) :=
  itens_sel <- calcular_itens (ler_form form) ;;
  e <- escolher_box_por_altura df_boxes itens_sel ;;
  Ret (itens_sel, e).

End Index.

(** ** The estimator in the words of the specification

    These definitions are not taken from the source: they say what the
    specification says of one item in a container of height [altura_box], and
    the theorems below compare [volume_para_box] with them. *)

(** Layers per stack: floor of container height over unit height, capped at
    the maximum stack count. *)
Definition camadas (it : item) (altura_box : Q) : Z :=
  Z.min (Qfloor (altura_box / altura it)%Q) (max_emp it).

(** Volume contribution of one item. *)
Definition contrib_volume (it : item) (altura_box : Q) : Q :=
  if empilhavel it
  then (inject_Z (ceil_div (qtd it) (camadas it altura_box)) * m3 it)%Q
  else (inject_Z (qtd it) * m3 it)%Q.

(** Height usage contribution of one item. *)
Definition contrib_altura (it : item) (altura_box : Q) : Q :=
  if empilhavel it
  then (inject_Z (Z.min (camadas it altura_box) (qtd it)) * altura it)%Q
  else altura it.

(** The item fits the height: it does not stack, or one layer at least fits. *)
Definition cabe (altura_box : Q) (it : item) : bool :=
  negb (empilhavel it) || (1 <=? camadas it altura_box).

Definition soma_contribs (itens : list item) (altura_box : Q) : Q :=
  fold_right (fun it s => (contrib_volume it altura_box + s)%Q) 0%Q itens.

(** The line of the breakdown for one item. *)
Definition linha (altura_box : Q) (it : item) : detalhe :=
  if empilhavel it
  then DetPilhas (qtd it) (nome it)
         (ceil_div (qtd it) (camadas it altura_box))
         (contrib_volume it altura_box)
         (camadas it altura_box)
         (contrib_altura it altura_box)
  else DetNaoEmpilha (qtd it) (nome it) (contrib_volume it altura_box) (altura it).

(** The invariant of a NormalizedItem in the data model. *)
Definition normalizado (it : item) : Prop :=
  0 < qtd it /\ (0 < m3 it)%Q /\ (0 < altura it)%Q /\ 1 <= max_emp it.

(** No stackable item has unit height zero: what [volume_para_box] needs so
    as not to divide by zero. *)
Definition alturas_ok (itens : list item) : Prop :=
  Forall (fun it => empilhavel it = true -> ~ (altura it == 0)%Q) itens.

(** A candidate is eligible with computed volume [vol]: the estimate for its
    height succeeds and its capacity is at least [vol]. *)
Definition elegivel (itens : list item) (b : box) (vol : Q) : Prop :=
  exists alt_uso detalhes,
    volume_para_box itens (Altura b) folga_padrao
      = Ret (Estimado vol alt_uso detalhes)
    /\ (vol <= Metros_Cubicos b)%Q.

(** ** The selector, step by step *)

(** What one candidate adds to [candidatos]. *)
Definition candidato_de (itens : list item) (b : box) : list candidato :=
  match volume_para_box itens (Altura b) folga_padrao with
  | Ret (Estimado vol alt_uso detalhes) =>
      if Qle_bool vol (Metros_Cubicos b) then [(vol, alt_uso, detalhes, b)] else []
  | _ => []
  end.

(** The first of the least elements of a list, for a strict order [lt]. *)
Fixpoint primeiro_min {A : Type} (lt : A -> A -> bool) (l : list A) : option A :=
  match l with
  | [] => None
  | x :: r =>
      match primeiro_min lt r with
      | None => Some x
      | Some y => if lt y x then Some y else Some x
      end
  end.

(** The sort keys in lexicographic order. *)
Definition chave_menor (c1 v1 c2 v2 : Q) : Prop :=
  (c1 < c2)%Q \/ ((c1 == c2)%Q /\ (v1 < v2)%Q).

(** ** Worked data *)

Definition ex_geladeiras : item :=
  mk_item "geladeira" 2 (120 # 100) false 1 (180 # 100).

Definition ex_caixas : item :=
  mk_item "caixa pequena" 10 (10 # 100) true 6 (40 # 100).

Definition box_A : box := mk_box "A" 2 2 (25 # 10) 10.
Definition box_B : box := mk_box "B" 2 2 1 4.
Definition box_C : box := mk_box "C" 4 1 1 4.
Definition box_baixo : box := mk_box "baixo" 3 3 (3 # 10) (27 # 10).

Definition ex_boxes : list box := [box_A; box_B; box_C].

(** ** The normaliser in the words of the specification *)

(** The identifier resolves: it is the slug of a key of the catalogue. *)
Definition resolve (slug : string) : bool :=
  existsb (fun k => String.eqb (slugify k) slug) (keys catalogo).

(** An entry of the request that survives: positive quantity and an
    identifier that resolves. *)
Definition valida (e : string * Z) : bool := (0 <? snd e) && resolve (fst e).

(** What one entry of the request adds to the list of items. *)
Definition itens_de (e : string * Z) : list item :=
  match calcular_passo catalogo slug_to_nome [] e with
  | Ret l => l
  | Raise _ => []
  end.

(** [l] is [ref] with some elements left out, order kept. *)
Fixpoint subseqb (l ref : list string) : bool :=
  match ref with
  | [] => match l with
          | [] => true
          | _ :: _ => false
          end
  | r :: ref' =>
      match l with
      | [] => true
      | x :: l' => if String.eqb x r then subseqb l' ref' else subseqb l ref'
      end
  end.

(** A check of the catalogue, run once: the slug table gives each slug a
    non-empty key of the catalogue whose slug it is, with positive volume and
    height and a stack count of 1 at least. *)
Definition entrada_ok (e : string * string) : bool :=
  String.eqb (slugify (snd e)) (fst e)
  && negb (String.eqb (snd e) "")
  && existsb (String.eqb (snd e)) (keys catalogo)
  && match dict_get (snd e) catalogo with
     | Some meta =>
         Qlt_bool 0 (meta_m3 meta)
         && Qlt_bool 0 (get_or (meta_altura meta) (5 # 10))
         && (1 <=? get_or (meta_max_emp meta) 1)
     | None => false
     end.

Definition chave_ok (k : string) : bool :=
  match dict_get (slugify k) slug_to_nome with
  | Some _ => true
  | None => false
  end.

(** [int(raw)] for plain decimal text, an optional sign and digits.  Python
    reads more texts than these (digits grouped by underscores, for one);
    this reading serves the worked requests below. *)
Fixpoint digitos (l : list ascii) (acc : Z) : option Z :=
  match l with
  | [] => Some acc
  | c :: r =>
      let n := nat_of_ascii c in
      if ((48 <=? n) && (n <=? 57))%nat
      then digitos r (10 * acc + Z.of_nat (n - 48))
      else None
  end.

Definition int_decimal (s : string) : option Z :=
  match list_ascii_of_string s with
  | [] => None
  | c :: r =>
      if Ascii.eqb c "-" then
        match r with
        | [] => None
        | _ :: _ => option_map Z.opp (digitos r 0)
        end
      else if Ascii.eqb c "+" then
        match r with
        | [] => None
        | _ :: _ => digitos r 0
        end
      else digitos (c :: r) 0
  end.

Definition ex_form : list (string * string) :=
  [ ("qty_sofa", " 1 "); ("qty_geladeira", "2"); ("qty_tv", "-3");
    ("qty_rack", "dois"); ("qty_mesa", ""); ("qty_piano", "4") ].

(** ** More worked data and readers *)

(** A stackable item of unit height zero, which no catalogue entry has. *)
Definition ex_colchoes_zero : item := mk_item "colchao" 1 (80 # 100) true 3 0.

(** The quantity and the name a line of the breakdown starts with. *)
Definition det_qtd_nome (d : detalhe) : Z * string :=
  match d with
  | DetPilhas q n _ _ _ _ => (q, n)
  | DetNaoEmpilha q n _ _ => (q, n)
  end.


(** ** Changing the rows of the boxes *)

(** The candidate [t] with its row changed by [f]. *)
Definition cand_com_box (f : box -> box) (t : candidato) : candidato :=
  (fst t, f (snd t)).

(** The result [e] with the chosen row, when there is one, changed by [f]. *)
Definition escolha_com_box (f : box -> box) (e : res escolha) : res escolha :=
  match e with
  | Ret (Escolhido b vol alt det) => Ret (Escolhido (f b) vol alt det)
  | other => other
  end.

(** A row with another name, width and length. *)
Definition renomear (b : box) : box :=
  mk_box "outro" 1 1 (Altura b) (Metros_Cubicos b).

(** ** The list for the UI over any catalogue *)

(** Lines 50 to 60 of the source, with the catalogue as an argument. *)
Definition itens_ui_de (cat : list (string * meta)) : list item_ui :=
  py_sorted (fun x y => String.ltb (ui_nome x) (ui_nome y))
    (map (fun '(nome, meta) =>
            {| ui_nome := nome;
               ui_slug := slugify nome;
               ui_m3 := meta_m3 meta;
               ui_empilhavel := get_or (meta_empilhavel meta) false;
               ui_max_emp := get_or (meta_max_emp meta) 1;
               ui_altura := get_or (meta_altura meta) (5 # 10) |})
         cat).

(** ** The characters of a slug *)

(** A lower-case letter, a digit or an underscore. *)
Definition slugc (c : ascii) : bool := Str.is_az09 c || Ascii.eqb c "_".

Definition chars (s : string) : list ascii := list_ascii_of_string s.

(** [s.lower()]. *)
Definition lower (s : string) : string :=
  string_of_list_ascii (map Str.lower_char (chars s)).

(** ** Rota principal: what the page is given *)

Inductive metodo : Type :=
| GET
| POST.

(** [resultado_html]: the text with the total volume, the height used and
    the suggested box, or the text that no box is available. *)
Inductive resultado_html : Type :=
| ResultadoBox (vol_calc alt_usada : Q) (b : box)
| ResultadoNenhum.

(** [detalhes_html]: the lines of the breakdown under "Itens:", a text as it
    is, or a dash. *)
Inductive detalhes_html : Type :=
| DetalhesItens (linhas : list detalhe)
| DetalhesTexto (s : string)
| DetalhesTraco.

Section Pagina.

Variable py_int : string -> option Z.

(** [index], up to the call of [render_template]: the values of
    [resultado] and [detalhes] given to the template. *)
Definition index (df_boxes : list box) (m : metodo)
  (form : list (string * string))
  : res (option resultado_html * option detalhes_html) :=
  match m with
  | GET => Ret (None, None)
  | POST =>
      r <- index_post py_int df_boxes form ;;
      let itens_sel := fst r in
      let detalhes :=
        match snd r with
        | Escolhido _ _ _ det =>
            match itens_sel with
            | [] => DetalhesTraco
            | _ :: _ => DetalhesItens det
            end
        | Nenhum motivo => DetalhesTexto motivo
        end in
      let resultado :=
        match snd r with
        | Escolhido b vol_calc alt_usada _ => ResultadoBox vol_calc alt_usada b
        | Nenhum _ => ResultadoNenhum
        end in
      Ret (Some resultado, Some detalhes)
  end.

End Pagina.

(** * The estimator and the selector over Python's floats

    The definitions above read a float as an exact rational.  The module
    [F64] has the same two functions over the arithmetic the program runs
    on: binary64 numbers with rounding to nearest, ties to even, as
    [SpecFloat] specifies them, and the exceptions of the conversions
    between [int] and [float].  A literal such as [0.40] is the binary64
    number nearest to it. *)

Module F64.

Definition float : Type := spec_float.
Definition prec : Z := 53.
Definition emax : Z := 1024.

Definition zero : float := S754_zero false.

Definition add (x y : float) : float := SFadd prec emax x y.
Definition sub (x y : float) : float := SFsub prec emax x y.
Definition mul (x y : float) : float := SFmul prec emax x y.
Definition div (x y : float) : float := SFdiv prec emax x y.
Definition ltb (x y : float) : bool := SFltb x y.
Definition leb (x y : float) : bool := SFleb x y.
Definition eqb (x y : float) : bool := SFeqb x y.

Definition is_inf (x : float) : bool :=
  match x with
  | S754_infinity _ => true
  | _ => false
  end.

(** [bool(x)]: [x != 0.0]. *)
Definition truthy (x : float) : bool :=
  match x with
  | S754_zero _ => false
  | _ => true
  end.

Definition sinal (x : float) : bool :=
  match x with
  | S754_zero s | S754_infinity s | S754_finite s _ _ => s
  | S754_nan => false
  end.

(** The integer [n] itself, with no rounding: mantissa [|n|], exponent 0. *)
Definition exato (n : Z) : float :=
  match n with
  | Z0 => zero
  | Zpos p => S754_finite false p 0
  | Zneg p => S754_finite true p 0
  end.

(** The literal [n/d] written in decimal ([0.40] is [lit 40 100]): the
    quotient, rounded once. *)
Definition lit (n : Z) (d : positive) : float := div (exato n) (exato (Zpos d)).

Definition of_Q (q : Q) : float := lit (Qnum q) (Qden q).

Definition one : float := lit 1 1.

(** [float(n)] as [int * float] does it: the nearest float, and
    [OverflowError] when [n] is too large for one. *)
Definition of_int (n : Z) : res float :=
  let f := binary_normalize prec emax n 0 false in
  if is_inf f then Raise OverflowError else Ret f.

(** [n * x] for an int [n] and a float [x]. *)
Definition imul (n : Z) (x : float) : res float :=
  f <- of_int n ;; Ret (mul f x).

(** [n / d] on ints: the quotient rounded once, [OverflowError] when it is
    too large for a float. *)
Definition truediv (n d : Z) : res float :=
  if d =? 0 then Raise ZeroDivisionError
  else
    let f := div (exato n) (exato d) in
    if is_inf f then Raise OverflowError else Ret f.

(** [math.ceil(x)]. *)
Definition ceil (x : float) : res Z :=
  match x with
  | S754_nan => Raise ValueError
  | S754_infinity _ => Raise OverflowError
  | S754_zero _ => Ret 0
  | S754_finite s m e =>
      Ret (match e with
           | Zneg k => - (cond_Zopp (negb s) (Zpos m) / 2 ^ Zpos k)
           | _ => cond_Zopp s (Zpos m * 2 ^ e)
           end)
  end.

(** [math.ceil(n / d)] on ints. *)
Definition ceil_truediv (n d : Z) : res Z := q <- truediv n d ;; ceil q.

(** [int(x)]: towards zero. *)
Definition to_int (x : float) : res Z :=
  match x with
  | S754_nan => Raise ValueError
  | S754_infinity _ => Raise OverflowError
  | S754_zero _ => Ret 0
  | S754_finite s m e =>
      Ret (match e with
           | Zneg k => Z.quot (cond_Zopp s (Zpos m)) (2 ^ Zpos k)
           | _ => cond_Zopp s (Zpos m * 2 ^ e)
           end)
  end.

(** C's [fmod]: exact, with the sign of [x]. *)
Definition fmod (x y : float) : float :=
  match x, y with
  | S754_nan, _ | _, S754_nan => S754_nan
  | S754_infinity _, _ => S754_nan
  | _, S754_zero _ => S754_nan
  | S754_zero _, _ => x
  | S754_finite _ _ _, S754_infinity _ => x
  | S754_finite sx mx ex, S754_finite _ my ey =>
      let e := Z.min ex ey in
      let ax := Zpos mx * 2 ^ (ex - e) in
      let ay := Zpos my * 2 ^ (ey - e) in
      binary_normalize prec emax (cond_Zopp sx (ax mod ay)) e sx
  end.

(** C's [floor]. *)
Definition floor (x : float) : float :=
  match x with
  | S754_finite s m (Zneg k) =>
      binary_normalize prec emax (cond_Zopp s (Zpos m) / 2 ^ Zpos k) 0 s
  | _ => x
  end.

(** [vx // wx] on floats, as [float_floor_div] computes it: the remainder
    by [fmod], the quotient of what is left, moved to the side of the
    divisor's sign and snapped to the nearest whole number. *)
Definition floordiv (vx wx : float) : res float :=
  if eqb wx zero then Raise ZeroDivisionError
  else
    let md := fmod vx wx in
    let d0 := div (sub vx md) wx in
    let d1 :=
      if truthy md
      then if xorb (ltb wx zero) (ltb md zero) then sub d0 one else d0
      else d0 in
    if truthy d1 then
      let f := floor d1 in
      Ret (if ltb (lit 1 2) (sub d1 f) then add f one else f)
    else Ret (S754_zero (sinal (div vx wx))).

(** [int(a // b)]. *)
Definition floordiv_int (a b : float) : res Z :=
  f <- floordiv a b ;; to_int f.

(** [max(a, b)] keeps [a] unless [b > a]. *)
Definition py_max (a b : float) : float := if ltb a b then b else a.

(** The exact value of a finite float. *)
Definition val (x : float) : Q :=
  match x with
  | S754_finite s m e =>
      match e with
      | Zneg k => Qmake (cond_Zopp s (Zpos m)) (2 ^ k)%positive
      | _ => inject_Z (cond_Zopp s (Zpos m * 2 ^ e))
      end
  | _ => 0%Q
  end.

Record item : Type := mk_item {
  nome : string;
  qtd : Z;
  m3 : float;
  empilhavel : bool;
  max_emp : Z;
  altura : float
}.

Record box : Type := mk_box {
  Box : string;
  Largura : float;
  Comprimento : float;
  Altura : float;
  Metros_Cubicos : float
}.

Inductive detalhe : Type :=
| DetPilhas (q : Z) (n : string) (pilhas : Z) (v_item : float)
    (camadas_por_pilha : Z) (altura_pilha : float)
| DetNaoEmpilha (q : Z) (n : string) (v_item : float) (alt : float).

Inductive estimativa : Type :=
| Estimado (total max_alt_uso : float) (detalhes : list detalhe)
| NaoCabe (n : string) (alt altura_box : float).

Definition folga_padrao : float := lit 15 100.

Fixpoint volume_loop (itens : list item) (altura_box : float)
  (total max_alt_uso : float) (detalhes : list detalhe) (folga : float)
  : res estimativa :=
  match itens with
  | [] => Ret (Estimado (mul total (add one folga)) max_alt_uso detalhes)
  | it :: resto =>
      let q := qtd it in
      let v := m3 it in
      let alt := altura it in
      if empilhavel it then
        c <- floordiv_int altura_box alt ;;
        let camadas_por_pilha := Z.min c (max_emp it) in
        if camadas_por_pilha <? 1 then Ret (NaoCabe (nome it) alt altura_box)
        else
          pilhas <- ceil_truediv q camadas_por_pilha ;;
          v_item <- imul pilhas v ;;
          altura_pilha <- imul (Z.min camadas_por_pilha q) alt ;;
          volume_loop resto altura_box
            (add total v_item) (py_max max_alt_uso altura_pilha)
            (detalhes ++ [DetPilhas q (nome it) pilhas v_item
                            camadas_por_pilha altura_pilha])
            folga
      else
        v_item <- imul q v ;;
        volume_loop resto altura_box
          (add total v_item) (py_max max_alt_uso alt)
          (detalhes ++ [DetNaoEmpilha q (nome it) v_item alt])
          folga
  end.

Definition volume_para_box (itens : list item) (altura_box : float)
  (folga : float) : res estimativa :=
  volume_loop itens altura_box zero zero [] folga.

Definition candidato : Type := (float * float * list detalhe * box)%type.

Definition cand_vol (t : candidato) : float := fst (fst (fst t)).
Definition cand_box (t : candidato) : box := snd t.

Definition chave_lt (t u : candidato) : bool :=
  let ct := Metros_Cubicos (cand_box t) in
  let cu := Metros_Cubicos (cand_box u) in
  if eqb ct cu then
    if eqb (cand_vol t) (cand_vol u) then false
    else ltb (cand_vol t) (cand_vol u)
  else ltb ct cu.

Inductive escolha : Type :=
| Escolhido (b : box) (volume_calc altura_usada : float)
    (detalhes : list detalhe)
| Nenhum (motivo : string).

Definition escolher_passo (itens : list item) (candidatos : list candidato)
  (b : box) : res (list candidato) :=
  let altura_box := Altura b in
  r <- volume_para_box itens altura_box folga_padrao ;;
  match r with
  | NaoCabe _ _ _ => Ret candidatos
  | Estimado vol alt_uso detalhes =>
      if leb vol (Metros_Cubicos b)
      then Ret (candidatos ++ [(vol, alt_uso, detalhes, b)])
      else Ret candidatos
  end.

Definition escolher_box_por_altura (df_boxes : list box) (itens : list item)
  : res escolha :=
  candidatos <- for_each (escolher_passo itens) df_boxes [] ;;
  match candidatos with
  | [] => Ret (Nenhum motivo_nenhum_box)
  | _ :: _ =>
      match py_sorted chave_lt candidatos with
      | [] => Raise IndexError
      | (vol, alt_uso, detalhes, b) :: _ => Ret (Escolhido b vol alt_uso detalhes)
      end
  end.

(** What one item gives to the loop: its volume, its height and its line;
    [None] when not one layer of it fits. *)
Definition parcela (altura_box : float) (it : item)
  : res (option (float * float * detalhe)) :=
  if empilhavel it then
    c <- floordiv_int altura_box (altura it) ;;
    let camadas := Z.min c (max_emp it) in
    if camadas <? 1 then Ret None
    else
      pilhas <- ceil_truediv (qtd it) camadas ;;
      v <- imul pilhas (m3 it) ;;
      a <- imul (Z.min camadas (qtd it)) (altura it) ;;
      Ret (Some (v, a, DetPilhas (qtd it) (nome it) pilhas v camadas a))
  else
    v <- imul (qtd it) (m3 it) ;;
    Ret (Some (v, altura it, DetNaoEmpilha (qtd it) (nome it) v (altura it))).

Definition p_vol (p : float * float * detalhe) : float := fst (fst p).
Definition p_alt (p : float * float * detalhe) : float := snd (fst p).
Definition p_det (p : float * float * detalhe) : detalhe := snd p.

(** The float sum of a list, from the left, starting at [t]. *)
Definition soma (t : float) (vs : list float) : float := fold_left add vs t.

(** The running maximum of a list, starting at [m]. *)
Definition maximo (m : float) (hs : list float) : float := fold_left py_max hs m.

(** A candidate is eligible with computed volume [vol]. *)
Definition elegivel (itens : list item) (b : box) (vol : float) : Prop :=
  exists alt_uso detalhes,
    volume_para_box itens (Altura b) folga_padrao
      = Ret (Estimado vol alt_uso detalhes)
    /\ leb vol (Metros_Cubicos b) = true.

Definition candidato_de (itens : list item) (b : box) : list candidato :=
  match volume_para_box itens (Altura b) folga_padrao with
  | Ret (Estimado vol alt_uso detalhes) =>
      if leb vol (Metros_Cubicos b) then [(vol, alt_uso, detalhes, b)] else []
  | _ => []
  end.

End F64.

(** A normalised item with its volume and height as floats. *)
Definition item64 (it : item) : F64.item :=
  F64.mk_item (nome it) (qtd it) (F64.of_Q (m3 it)) (empilhavel it)
    (max_emp it) (F64.of_Q (altura it)).

Definition box64 (b : box) : F64.box :=
  F64.mk_box (Box b) (F64.of_Q (Largura b)) (F64.of_Q (Comprimento b))
    (F64.of_Q (Altura b)) (F64.of_Q (Metros_Cubicos b)).

(** The POST branch of [index] up to the selection, over floats. *)
Definition index_post64 (py_int : string -> option Z) (df_boxes : list F64.box)
  (form : list (string * string)) : res (list item * F64.escolha) :=
  itens_sel <- calcular_itens (ler_form py_int form) ;;
  e <- F64.escolher_box_por_altura df_boxes (map item64 itens_sel) ;;
  Ret (itens_sel, e).

(** [ps] are what the items of [itens] give, one for one: each item fits
    and its operations raise nothing. *)
Definition parcelas64 (altura_box : F64.float) (itens : list F64.item)
  (ps : list (F64.float * F64.float * F64.detalhe)) : Prop :=
  Forall2 (fun it p => F64.parcela altura_box it = Ret (Some p)) itens ps.

(** The result of the estimator for items that give [ps]. *)
Definition estimado64 (folga : F64.float)
  (ps : list (F64.float * F64.float * F64.detalhe)) : F64.estimativa :=
  F64.Estimado
    (F64.mul (F64.soma F64.zero (map F64.p_vol ps)) (F64.add F64.one folga))
    (F64.maximo F64.zero (map F64.p_alt ps))
    (map F64.p_det ps).

(** Worked items and boxes as floats. *)
Definition g64 : F64.item := item64 ex_geladeiras.
Definition c64 : F64.item := item64 ex_caixas.

(** 2^53 + 1 caixas pequenas. *)
Definition c64_grande : F64.item :=
  item64 (mk_item "caixa pequena" 9007199254740993 (10 # 100) true 6 (40 # 100)).

(** 10^400 geladeiras. *)
Definition g64_enorme : F64.item :=
  item64 (mk_item "geladeira" (10 ^ 400) (120 # 100) false 1 (180 # 100)).

Definition ex_boxes64 : list F64.box := map box64 ex_boxes.

(** * Properties *)

(** ** Numbers *)

Lemma Qlt_bool_iff (x y : Q) : Qlt_bool x y = true <-> (x < y)%Q.
Proof.
  unfold Qlt_bool. rewrite negb_true_iff. split.
  - intros H. apply Qnot_le_lt. intros Hle.
    apply Qle_bool_iff in Hle. congruence.
  - intros H. destruct (Qle_bool y x) eqn:E; [|reflexivity].
    apply Qle_bool_iff in E. exfalso. exact (Qlt_not_le _ _ H E).
Qed.

Lemma Qlt_bool_false (x y : Q) : Qlt_bool x y = false <-> (y <= x)%Q.
Proof.
  unfold Qlt_bool. rewrite negb_false_iff. apply Qle_bool_iff.
Qed.

Lemma Qeq_bool_false (x y : Q) : Qeq_bool x y = false <-> ~ (x == y)%Q.
Proof.
  split.
  - intros E H. apply Qeq_bool_iff in H. congruence.
  - intros H. destruct (Qeq_bool x y) eqn:E; [|reflexivity].
    apply Qeq_bool_iff in E. contradiction.
Qed.

Lemma py_max_cases (a b : Q) :
  (a < b)%Q /\ py_max a b = b \/ (b <= a)%Q /\ py_max a b = a.
Proof.
  unfold py_max. destruct (Qlt_bool a b) eqn:E.
  - left. split; [now apply Qlt_bool_iff|reflexivity].
  - right. split; [now apply Qlt_bool_false|reflexivity].
Qed.

Lemma py_max_l (a b : Q) : (a <= py_max a b)%Q.
Proof.
  destruct (py_max_cases a b) as [[H ->]|[H ->]].
  - now apply Qlt_le_weak.
  - apply Qle_refl.
Qed.

Lemma py_max_r (a b : Q) : (b <= py_max a b)%Q.
Proof.
  destruct (py_max_cases a b) as [[H ->]|[H ->]].
  - apply Qle_refl.
  - exact H.
Qed.

Lemma Qdiv_mult_cancel (x y : Q) : (0 < y)%Q -> (x / y * y == x)%Q.
Proof.
  intros Hy. rewrite Qmult_comm. apply Qmult_div_r.
  intros E. rewrite E in Hy. discriminate.
Qed.


Lemma floordiv_int_unique (H h : Q) (c k : Z) :
  (0 < h)%Q ->
  (inject_Z c * h <= H)%Q -> (H < inject_Z (c + 1) * h)%Q ->
  (inject_Z k * h <= H)%Q -> (H < inject_Z (k + 1) * h)%Q ->
  c = k.
Proof.
  intros Hh Hc1 Hc2 Hk1 Hk2.
  assert (A : (inject_Z c < inject_Z (k + 1))%Q).
  { apply (Qmult_lt_r _ _ h Hh). eapply Qle_lt_trans; eassumption. }
  assert (B : (inject_Z k < inject_Z (c + 1))%Q).
  { apply (Qmult_lt_r _ _ h Hh). eapply Qle_lt_trans; eassumption. }
  rewrite <- Zlt_Qlt in A, B. lia.
Qed.

(** Ceiling division: [p = ceil(n / d)] is the one integer with
    [(p - 1) * d < n <= p * d]. *)
Lemma ceil_div_spec (n d : Z) :
  1 <= d -> (ceil_div n d - 1) * d < n <= ceil_div n d * d.
Proof.
  intros Hd. unfold ceil_div.
  assert (Hq : (inject_Z 0 < inject_Z d)%Q) by (rewrite <- Zlt_Qlt; lia).
  change (inject_Z 0) with 0%Q in Hq.
  set (x := (inject_Z n / inject_Z d)%Q).
  assert (Hx : (x * inject_Z d == inject_Z n)%Q) by now apply Qdiv_mult_cancel.
  split.
  - rewrite Zlt_Qlt, inject_Z_mult, <- Hx.
    apply Qmult_lt_r; [exact Hq|]. apply Qceiling_lt.
  - rewrite Zle_Qle, inject_Z_mult, <- Hx.
    apply Qmult_le_r; [exact Hq|]. apply Qle_ceiling.
Qed.

Lemma ceil_div_unique (n d p : Z) :
  1 <= d -> (p - 1) * d < n <= p * d -> p = ceil_div n d.
Proof.
  intros Hd Hp. pose proof (ceil_div_spec n d Hd) as Hc. nia.
Qed.

(** ** The estimator *)

Lemma floordiv_int_ok (a b : Q) :
  ~ (b == 0)%Q -> floordiv_int a b = Ret (Qfloor (a / b)%Q).
Proof.
  intros Hb. unfold floordiv_int.
  apply Qeq_bool_false in Hb. now rewrite Hb.
Qed.

Lemma volume_loop_empilha it resto H total mx det folga :
  empilhavel it = true -> ~ (altura it == 0)%Q ->
  volume_loop (it :: resto) H total mx det folga =
    if camadas it H <? 1 then Ret (NaoCabe (nome it) (altura it) H)
    else volume_loop resto H (total + contrib_volume it H)%Q
           (py_max mx (contrib_altura it H)) (det ++ [linha H it]) folga.
Proof.
  intros Hs Hh. cbn [volume_loop]. rewrite Hs.
  rewrite (floordiv_int_ok _ _ Hh). cbn [bind].
  unfold linha, contrib_volume, contrib_altura. rewrite Hs.
  fold (camadas it H). reflexivity.
Qed.

Lemma volume_loop_nao_empilha it resto H total mx det folga :
  empilhavel it = false ->
  volume_loop (it :: resto) H total mx det folga =
    volume_loop resto H (total + contrib_volume it H)%Q
      (py_max mx (contrib_altura it H)) (det ++ [linha H it]) folga.
Proof.
  intros Hs. cbn [volume_loop]. rewrite Hs.
  unfold linha, contrib_volume, contrib_altura. rewrite Hs. reflexivity.
Qed.

Lemma volume_loop_cabe it resto H total mx det folga :
  cabe H it = true -> (empilhavel it = true -> ~ (altura it == 0)%Q) ->
  volume_loop (it :: resto) H total mx det folga =
    volume_loop resto H (total + contrib_volume it H)%Q
      (py_max mx (contrib_altura it H)) (det ++ [linha H it]) folga.
Proof.
  intros Hc Hh. destruct (empilhavel it) eqn:Hs.
  - rewrite volume_loop_empilha by auto.
    unfold cabe in Hc. rewrite Hs in Hc. cbn in Hc.
    apply Z.leb_le in Hc.
    destruct (camadas it H <? 1) eqn:E; [apply Z.ltb_lt in E; lia|reflexivity].
  - now apply volume_loop_nao_empilha.
Qed.

(** When every item fits, the loop ends with the sum of the contributions
    times [1 + folga], a peak that bounds every height contribution and is
    one of them (or the starting value), and one line per item. *)
Lemma volume_loop_estimado itens H folga :
  Forall (fun it => cabe H it = true) itens -> alturas_ok itens ->
  forall total mx det,
  exists T P,
    volume_loop itens H total mx det folga
      = Ret (Estimado T P (det ++ map (linha H) itens))
    /\ (T == (total + soma_contribs itens H) * (1 + folga))%Q
    /\ (mx <= P)%Q
    /\ (forall it, In it itens -> (contrib_altura it H <= P)%Q)
    /\ (P = mx \/ exists it, In it itens /\ P = contrib_altura it H).
Proof.
  intros Hc Hok. induction itens as [|it resto IH]; intros total mx det.
  - exists (total * (1 + folga))%Q, mx. cbn. rewrite app_nil_r.
    split; [reflexivity|]. split; [now rewrite Qplus_0_r|].
    split; [apply Qle_refl|]. split; [tauto|now left].
  - inversion Hc as [|? ? Hc1 Hc2]; subst.
    inversion Hok as [|? ? Hok1 Hok2]; subst.
    rewrite (volume_loop_cabe _ _ _ _ _ _ _ Hc1 Hok1).
    destruct (IH Hc2 Hok2 (total + contrib_volume it H)%Q
                (py_max mx (contrib_altura it H)) (det ++ [linha H it]))
      as (T & P & E & HT & HP & Hall & Hatt).
    exists T, P. split.
    { rewrite E. cbn [map]. now rewrite <- app_assoc. }
    split.
    { rewrite HT. cbn [soma_contribs fold_right].
      fold (soma_contribs resto H). now rewrite Qplus_assoc. }
    split.
    { eapply Qle_trans; [apply py_max_l|exact HP]. }
    split.
    { intros x [<-|Hin]; [|now apply Hall].
      eapply Qle_trans; [apply py_max_r|exact HP]. }
    destruct Hatt as [->|(x & Hin & ->)].
    + destruct (py_max_cases mx (contrib_altura it H)) as [[_ ->]|[_ ->]].
      * right. exists it. split; [now left|reflexivity].
      * now left.
    + right. exists x. split; [now right|reflexivity].
Qed.

(** The loop stops at the first item that does not fit and names it. *)
Lemma volume_loop_primeiro_nao_cabe pre it post H folga :
  Forall (fun x => cabe H x = true) pre -> alturas_ok (pre ++ [it]) ->
  cabe H it = false ->
  forall total mx det,
    volume_loop (pre ++ it :: post) H total mx det folga
      = Ret (NaoCabe (nome it) (altura it) H).
Proof.
  intros Hc Hok Hit. induction pre as [|x pre IH]; intros total mx det.
  - cbn [app]. unfold cabe in Hit.
    destruct (empilhavel it) eqn:Hs; [|discriminate]. cbn in Hit.
    inversion Hok as [|? ? Hh _]; subst.
    rewrite volume_loop_empilha by auto.
    apply Z.leb_gt in Hit. apply Z.ltb_lt in Hit. now rewrite Hit.
  - inversion Hc; subst. inversion Hok; subst.
    cbn [app]. rewrite volume_loop_cabe by auto. now apply IH.
Qed.

(** Splitting a list at its first item that does not fit. *)
Lemma primeiro_nao_cabe (H : Q) (itens : list item) :
  forallb (cabe H) itens = false ->
  exists pre it post,
    itens = pre ++ it :: post
    /\ Forall (fun x => cabe H x = true) pre /\ cabe H it = false.
Proof.
  induction itens as [|x r IH]; [discriminate|]. cbn [forallb].
  destruct (cabe H x) eqn:E; cbn [andb]; intros Hr.
  - destruct (IH Hr) as (pre & it & post & -> & Hpre & Hit).
    exists (x :: pre), it, post. repeat split; auto.
  - exists [], x, r. repeat split; auto.
Qed.

Lemma alturas_ok_app_l (l r : list item) (it : item) :
  alturas_ok (l ++ it :: r) -> alturas_ok (l ++ [it]).
Proof.
  unfold alturas_ok. rewrite !Forall_app. intros [Hl Hr].
  split; [exact Hl|]. inversion Hr; subst. now constructor.
Qed.

(** Under [alturas_ok] the estimator never raises, and which of its two
    results it gives is decided by [cabe]. *)
Lemma volume_para_box_casos itens H folga :
  alturas_ok itens ->
  (forallb (cabe H) itens = true /\
   exists T P,
     volume_para_box itens H folga = Ret (Estimado T P (map (linha H) itens))
     /\ (T == soma_contribs itens H * (1 + folga))%Q
     /\ (0 <= P)%Q
     /\ (forall it, In it itens -> (contrib_altura it H <= P)%Q)
     /\ (P = 0%Q \/ exists it, In it itens /\ P = contrib_altura it H))
  \/
  (forallb (cabe H) itens = false /\
   exists it, In it itens /\ empilhavel it = true /\ camadas it H < 1
     /\ volume_para_box itens H folga = Ret (NaoCabe (nome it) (altura it) H)).
Proof.
  intros Hok. destruct (forallb (cabe H) itens) eqn:E.
  - left. split; [reflexivity|].
    rewrite forallb_forall in E. rewrite <- Forall_forall in E.
    destruct (volume_loop_estimado itens H folga E Hok 0%Q 0%Q [])
      as (T & P & Eq & HT & HP & Hall & Hatt).
    exists T, P. split; [exact Eq|].
    split; [now rewrite HT, Qplus_0_l|]. auto.
  - right. split; [reflexivity|].
    destruct (primeiro_nao_cabe H itens E) as (pre & it & post & -> & Hpre & Hit).
    exists it. split; [apply in_elt|].
    assert (Hs : empilhavel it = true /\ camadas it H < 1).
    { unfold cabe in Hit. destruct (empilhavel it); [|discriminate].
      cbn in Hit. apply Z.leb_gt in Hit. split; [reflexivity|lia]. }
    destruct Hs as [Hs Hlt]. repeat split; auto.
    unfold volume_para_box.
    apply volume_loop_primeiro_nao_cabe; auto.
    now apply alturas_ok_app_l with (r := post).
Qed.

(** What a result of the loop says of the items, with no assumption. *)
Lemma volume_loop_estimado_inv itens H folga :
  forall total mx det T P d,
    volume_loop itens H total mx det folga = Ret (Estimado T P d) ->
    alturas_ok itens /\ Forall (fun it => cabe H it = true) itens.
Proof.
  induction itens as [|it resto IH]; intros total mx det T P d E.
  - split; constructor.
  - cbn [volume_loop] in E. unfold cabe, alturas_ok.
    destruct (empilhavel it) eqn:Hs.
    + unfold floordiv_int in E.
      destruct (Qeq_bool (altura it) 0) eqn:Hz; [discriminate|].
      cbn [bind] in E. fold (camadas it H) in E.
      destruct (camadas it H <? 1) eqn:Hc; [discriminate|].
      apply IH in E. destruct E as [E1 E2]. split; constructor; auto.
      * intros _. now apply Qeq_bool_false.
      * rewrite Hs. cbn. apply Z.ltb_ge in Hc. apply Z.leb_le. lia.
    + apply IH in E. destruct E as [E1 E2]. split; constructor; auto.
      * intros Hs'. congruence.
      * now rewrite Hs.
Qed.



Lemma normalizado_alturas_ok (itens : list item) :
  Forall normalizado itens -> alturas_ok itens.
Proof.
  intros Hn. unfold alturas_ok. eapply Forall_impl; [|exact Hn].
  cbn. intros it (_ & _ & Ha & _) _ E. rewrite E in Ha. discriminate.
Qed.

(** ** Sorting *)

Section PrimeiroMin.
Context {A : Type} (lt : A -> A -> bool).
Hypothesis lt_trans :
  forall x y z, lt x y = true -> lt y z = true -> lt x z = true.
Hypothesis lt_neg_trans :
  forall x y z, lt x y = false -> lt y z = false -> lt x z = false.

(** The head of the sorted list is the first least element: it does not
    depend on the order being total. *)
Lemma hd_py_sorted (l : list A) :
  hd_error (py_sorted lt l) = primeiro_min lt l.
Proof.
  induction l as [|x r IH]; [reflexivity|].
  cbn [py_sorted primeiro_min]. rewrite <- IH.
  destruct (py_sorted lt r) as [|y s]; [reflexivity|].
  cbn. now destruct (lt y x).
Qed.

(** Everything before the first least element is strictly greater, nothing
    after it is smaller. *)
Lemma primeiro_min_spec (l : list A) (m : A) :
  primeiro_min lt l = Some m ->
  exists pre post,
    l = pre ++ m :: post
    /\ (forall c, In c pre -> lt m c = true)
    /\ (forall c, In c post -> lt c m = false).
Proof.
  revert m. induction l as [|x r IH]; intros m E; [discriminate|].
  cbn [primeiro_min] in E.
  destruct (primeiro_min lt r) as [y|] eqn:Er.
  - destruct (IH y eq_refl) as (pre & post & -> & Hpre & Hpost).
    destruct (lt y x) eqn:Eyx; injection E as <-.
    + exists (x :: pre), post. repeat split; auto.
      intros c [<-|Hc]; auto.
    + exists [], (pre ++ y :: post). repeat split; [intros c []|].
      intros c Hc. apply in_app_or in Hc. destruct Hc as [Hc|[<-|Hc]].
      * destruct (lt c x) eqn:Ecx; [|reflexivity].
        rewrite (lt_trans _ _ _ (Hpre c Hc) Ecx) in Eyx. discriminate.
      * exact Eyx.
      * eapply lt_neg_trans; [apply Hpost; exact Hc|exact Eyx].
  - injection E as <-. destruct r as [|z r'].
    + exists [], []. repeat split; intros c [].
    + cbn in Er. destruct (primeiro_min lt r'); [destruct (lt a z)|]; discriminate.
Qed.

Lemma primeiro_min_some (l : list A) :
  l <> [] -> exists m, primeiro_min lt l = Some m.
Proof.
  destruct l as [|x r]; [congruence|]. intros _. cbn.
  destruct (primeiro_min lt r) as [y|]; [destruct (lt y x)|]; eauto.
Qed.

End PrimeiroMin.

Lemma chave_lt_iff (t u : candidato) :
  chave_lt t u = true <->
  chave_menor (Metros_Cubicos (cand_box t)) (cand_vol t)
              (Metros_Cubicos (cand_box u)) (cand_vol u).
Proof.
  unfold chave_lt, chave_menor.
  destruct (Qeq_bool (Metros_Cubicos (cand_box t)) (Metros_Cubicos (cand_box u))) eqn:Ec.
  - apply Qeq_bool_iff in Ec.
    destruct (Qeq_bool (cand_vol t) (cand_vol u)) eqn:Ev.
    + apply Qeq_bool_iff in Ev. split; [discriminate|]. intros [H|[_ H]]; lra.
    + rewrite Qlt_bool_iff. split; [now right|]. intros [H|[_ H]]; [lra|exact H].
  - apply Qeq_bool_false in Ec. rewrite Qlt_bool_iff.
    split; [now left|]. intros [H|[H _]]; [exact H|contradiction].
Qed.

Lemma chave_lt_false_iff (t u : candidato) :
  chave_lt t u = false <->
  (Metros_Cubicos (cand_box u) <= Metros_Cubicos (cand_box t))%Q
  /\ ((Metros_Cubicos (cand_box u) == Metros_Cubicos (cand_box t))%Q ->
      (cand_vol u <= cand_vol t)%Q).
Proof.
  rewrite <- not_true_iff_false, chave_lt_iff. unfold chave_menor. split.
  - intros H. split.
    + apply Qnot_lt_le. tauto.
    + intros E. apply Qnot_lt_le. intros L. apply H. right. split; [now symmetry|exact L].
  - intros [H1 H2] [L|[E L]]; [lra|]. symmetry in E. specialize (H2 E). lra.
Qed.

Lemma chave_lt_trans (x y z : candidato) :
  chave_lt x y = true -> chave_lt y z = true -> chave_lt x z = true.
Proof.
  rewrite !chave_lt_iff. unfold chave_menor.
  intros [A|[A A']] [B|[B B']]; [left|left|left|right; split]; lra.
Qed.

Lemma chave_lt_neg_trans (x y z : candidato) :
  chave_lt x y = false -> chave_lt y z = false -> chave_lt x z = false.
Proof.
  rewrite !chave_lt_false_iff. intros [A A'] [B B']. split; [lra|].
  intros E. assert (E1 : (Metros_Cubicos (cand_box z) == Metros_Cubicos (cand_box y))%Q) by lra.
  assert (E2 : (Metros_Cubicos (cand_box y) == Metros_Cubicos (cand_box x))%Q) by lra.
  specialize (A' E2). specialize (B' E1). lra.
Qed.

(** ** The selector *)

Lemma escolher_passo_ret itens acc b r :
  volume_para_box itens (Altura b) folga_padrao = Ret r ->
  escolher_passo itens acc b = Ret (acc ++ candidato_de itens b).
Proof.
  intros E. unfold escolher_passo, candidato_de. rewrite E. cbn [bind].
  destruct r as [vol alt det|n a h]; [|now rewrite app_nil_r].
  destruct (Qle_bool vol (Metros_Cubicos b)); [reflexivity|now rewrite app_nil_r].
Qed.

Lemma escolher_passo_inv itens acc b c :
  escolher_passo itens acc b = Ret c -> c = acc ++ candidato_de itens b.
Proof.
  intros E.
  destruct (volume_para_box itens (Altura b) folga_padrao) as [r|e] eqn:Ev.
  - rewrite (escolher_passo_ret _ _ _ _ Ev) in E. congruence.
  - unfold escolher_passo in E. rewrite Ev in E. discriminate.
Qed.

Lemma candidatos_inv itens boxes :
  forall acc cands,
    for_each (escolher_passo itens) boxes acc = Ret cands ->
    cands = acc ++ flat_map (candidato_de itens) boxes.
Proof.
  induction boxes as [|b r IH]; intros acc cands E; cbn in E.
  - injection E as <-. cbn. now rewrite app_nil_r.
  - destruct (escolher_passo itens acc b) as [c|e] eqn:Eb; [|discriminate].
    cbn [bind] in E. apply escolher_passo_inv in Eb. subst c.
    apply IH in E. rewrite E. cbn [flat_map]. now rewrite app_assoc.
Qed.

Lemma candidatos_ok itens boxes :
  alturas_ok itens ->
  forall acc,
    for_each (escolher_passo itens) boxes acc
      = Ret (acc ++ flat_map (candidato_de itens) boxes).
Proof.
  intros Hok. induction boxes as [|b r IH]; intros acc; cbn [for_each flat_map].
  - now rewrite app_nil_r.
  - assert (Hr : exists x, volume_para_box itens (Altura b) folga_padrao = Ret x).
    { destruct (volume_para_box_casos itens (Altura b) folga_padrao Hok)
        as [(_ & T & P & E & _)|(_ & it & _ & _ & _ & E)]; eauto. }
    destruct Hr as [x Hx]. rewrite (escolher_passo_ret _ _ _ _ Hx).
    cbn [bind]. rewrite IH. now rewrite app_assoc.
Qed.

Lemma elegivel_candidato itens b vol :
  elegivel itens b vol <->
  exists alt det, candidato_de itens b = [(vol, alt, det, b)].
Proof.
  unfold elegivel, candidato_de. split.
  - intros (alt & det & E & Hle). exists alt, det. rewrite E.
    apply Qle_bool_iff in Hle. now rewrite Hle.
  - intros (alt & det & E).
    destruct (volume_para_box itens (Altura b) folga_padrao) as [[v a d|? ? ?]|?];
      try discriminate.
    destruct (Qle_bool v (Metros_Cubicos b)) eqn:Hle; [|discriminate].
    injection E as -> -> ->. exists alt, det.
    split; [reflexivity|now apply Qle_bool_iff].
Qed.

Lemma candidato_de_box itens b c :
  In c (candidato_de itens b) -> candidato_de itens b = [c] /\ cand_box c = b.
Proof.
  unfold candidato_de.
  destruct (volume_para_box itens (Altura b) folga_padrao) as [[v a d|? ? ?]|?];
    try (intros []).
  destruct (Qle_bool v (Metros_Cubicos b)); intros []; [|contradiction].
  subst c. split; reflexivity.
Qed.

Lemma elegivel_alturas_ok itens b vol : elegivel itens b vol -> alturas_ok itens.
Proof.
  intros (alt & det & E & _). unfold volume_para_box in E.
  now apply volume_loop_estimado_inv in E.
Qed.

Lemma elegivel_in_candidatos itens boxes b vol :
  In b boxes -> elegivel itens b vol ->
  exists alt det, In (vol, alt, det, b) (flat_map (candidato_de itens) boxes).
Proof.
  intros Hin He. apply elegivel_candidato in He. destruct He as (alt & det & E).
  exists alt, det. apply in_flat_map. exists b. split; [exact Hin|].
  rewrite E. now left.
Qed.

(** Splitting the boxes where the list of candidates is split. *)
Lemma candidatos_split itens boxes :
  forall l1 c l2,
    flat_map (candidato_de itens) boxes = l1 ++ c :: l2 ->
    exists pre post,
      boxes = pre ++ cand_box c :: post
      /\ flat_map (candidato_de itens) pre = l1
      /\ candidato_de itens (cand_box c) = [c]
      /\ flat_map (candidato_de itens) post = l2.
Proof.
  induction boxes as [|b r IH]; intros l1 c l2 E; cbn [flat_map] in E.
  - destruct l1; discriminate.
  - destruct (candidato_de itens b) as [|x xs] eqn:Eb.
    + cbn [app] in E. destruct (IH _ _ _ E) as (pre & post & -> & H1 & H2 & H3).
      exists (b :: pre), post. cbn [flat_map]. rewrite Eb.
      repeat split; auto.
    + destruct (candidato_de_box itens b x) as [Ex Hb]; [rewrite Eb; now left|].
      rewrite Eb in Ex. injection Ex as ->. cbn [app] in E.
      destruct l1 as [|y l1'].
      * cbn [app] in E. injection E as <- <-.
        exists [], r. rewrite Hb. repeat split; auto.
      * cbn [app] in E. injection E as <- E.
        destruct (IH _ _ _ E) as (pre & post & -> & H1 & H2 & H3).
        exists (b :: pre), post. cbn [flat_map]. rewrite Eb, H1.
        repeat split; auto.
Qed.

(** The selector in one equation, once the candidates are known. *)
Lemma escolher_por_candidatos itens boxes :
  for_each (escolher_passo itens) boxes []
    = Ret (flat_map (candidato_de itens) boxes) ->
  escolher_box_por_altura boxes itens =
    match primeiro_min chave_lt (flat_map (candidato_de itens) boxes) with
    | None => Ret (Nenhum motivo_nenhum_box)
    | Some (vol, alt_uso, detalhes, b) => Ret (Escolhido b vol alt_uso detalhes)
    end.
Proof.
  intros E. unfold escolher_box_por_altura. rewrite E. cbn [bind].
  rewrite <- (hd_py_sorted chave_lt).
  destruct (flat_map (candidato_de itens) boxes) as [|c cs] eqn:Ec; [reflexivity|].
  destruct (py_sorted chave_lt (c :: cs)) as [|[[[v a] d] b] s] eqn:Es; [|reflexivity].
  exfalso. pose proof (hd_py_sorted chave_lt (c :: cs)) as Hh.
  rewrite Es in Hh. cbn [hd_error] in Hh.
  destruct (primeiro_min_some chave_lt (c :: cs)) as [m Hm]; congruence.
Qed.

(** What a chosen box is, in the order of the provider: it is eligible, every
    eligible box before it has a strictly greater key (capacity, then
    volume), and no eligible box after it has a smaller key. *)
Lemma escolhido_spec itens boxes b vol alt det :
  escolher_box_por_altura boxes itens = Ret (Escolhido b vol alt det) ->
  exists pre post,
    boxes = pre ++ b :: post
    /\ volume_para_box itens (Altura b) folga_padrao = Ret (Estimado vol alt det)
    /\ (vol <= Metros_Cubicos b)%Q
    /\ (forall c v, In c pre -> elegivel itens c v ->
          chave_menor (Metros_Cubicos b) vol (Metros_Cubicos c) v)
    /\ (forall c v, In c post -> elegivel itens c v ->
          (Metros_Cubicos b <= Metros_Cubicos c)%Q
          /\ ((Metros_Cubicos b == Metros_Cubicos c)%Q -> (vol <= v)%Q)).
Proof.
  intros E.
  assert (Hc : for_each (escolher_passo itens) boxes []
               = Ret (flat_map (candidato_de itens) boxes)).
  { unfold escolher_box_por_altura in E.
    destruct (for_each (escolher_passo itens) boxes []) as [cs|e] eqn:Ef;
      [|discriminate].
    now rewrite (candidatos_inv _ _ _ _ Ef). }
  rewrite (escolher_por_candidatos _ _ Hc) in E.
  destruct (primeiro_min chave_lt (flat_map (candidato_de itens) boxes))
    as [[[[v a] d] b']|] eqn:Em; [|discriminate].
  injection E as -> -> -> ->.
  destruct (primeiro_min_spec chave_lt chave_lt_trans chave_lt_neg_trans _ _ Em)
    as (l1 & l2 & El & Hl1 & Hl2).
  destruct (candidatos_split _ _ _ _ _ El) as (pre & post & Hb & H1 & H2 & H3).
  cbn [cand_box snd] in Hb, H2.
  exists pre, post. split; [exact Hb|].
  assert (He : elegivel itens b vol).
  { apply elegivel_candidato. eauto. }
  destruct He as (alt' & det' & Ev & Hle).
  assert (Ealt : alt' = alt /\ det' = det).
  { unfold candidato_de in H2. rewrite Ev in H2.
    destruct (Qle_bool vol (Metros_Cubicos b)); [|discriminate].
    injection H2 as -> ->. split; reflexivity. }
  destruct Ealt as [-> ->].
  split; [exact Ev|]. split; [exact Hle|]. split.
  - intros c w Hin Hel.
    destruct (elegivel_in_candidatos _ _ _ _ Hin Hel) as (a' & d' & Hin').
    rewrite H1 in Hin'. specialize (Hl1 _ Hin').
    apply chave_lt_iff in Hl1. exact Hl1.
  - intros c w Hin Hel.
    destruct (elegivel_in_candidatos _ _ _ _ Hin Hel) as (a' & d' & Hin').
    rewrite H3 in Hin'. specialize (Hl2 _ Hin').
    apply chave_lt_false_iff in Hl2. exact Hl2.
Qed.

(** The selector fails exactly when there is no candidate left. *)
Lemma escolher_nenhum itens boxes :
  alturas_ok itens ->
  (flat_map (candidato_de itens) boxes = [] ->
   escolher_box_por_altura boxes itens = Ret (Nenhum motivo_nenhum_box))
  /\ (flat_map (candidato_de itens) boxes <> [] ->
      exists b vol alt det,
        escolher_box_por_altura boxes itens = Ret (Escolhido b vol alt det)).
Proof.
  intros Hok. pose proof (candidatos_ok itens boxes Hok []) as Hc.
  cbn [app] in Hc. rewrite (escolher_por_candidatos _ _ Hc). split.
  - intros ->. reflexivity.
  - intros Hne. destruct (primeiro_min_some chave_lt _ Hne) as [[[[v a] d] b] ->].
    eauto.
Qed.

(** ** Claims on the selector *)

(** C1. When some candidate is eligible, the selector returns an eligible
    candidate [b]; every eligible candidate has capacity at least that of [b],
    and, at equal capacity, computed volume at least that of [b]; and no
    eligible candidate earlier in the provider's order ties with [b] on both:
    among full ties the first in the provider's order is returned. *)
Theorem selector_min_capacity_then_volume_then_first itens boxes :
  (exists c v, In c boxes /\ elegivel itens c v) ->
  exists b vol alt det pre post,
    escolher_box_por_altura boxes itens = Ret (Escolhido b vol alt det)
    /\ elegivel itens b vol
    /\ boxes = pre ++ b :: post
    /\ (forall c v, In c boxes -> elegivel itens c v ->
          (Metros_Cubicos b <= Metros_Cubicos c)%Q
          /\ ((Metros_Cubicos b == Metros_Cubicos c)%Q -> (vol <= v)%Q))
    /\ (forall c v, In c pre -> elegivel itens c v ->
          ~ ((Metros_Cubicos b == Metros_Cubicos c)%Q /\ (vol == v)%Q)).
Proof.
  intros (c0 & v0 & Hin0 & He0).
  pose proof (elegivel_alturas_ok _ _ _ He0) as Hok.
  destruct (escolher_nenhum itens boxes Hok) as [_ Hsome].
  destruct Hsome as (b & vol & alt & det & E).
  { destruct (elegivel_in_candidatos _ _ _ _ Hin0 He0) as (a & d & Hin).
    intros Hnil. rewrite Hnil in Hin. contradiction. }
  destruct (escolhido_spec _ _ _ _ _ _ E)
    as (pre & post & Hb & Ev & Hle & Hpre & Hpost).
  exists b, vol, alt, det, pre, post.
  split; [exact E|]. split; [exists alt, det; auto|]. split; [exact Hb|].
  assert (Hself : forall v, elegivel itens b v -> v = vol).
  { intros v (a & d & Ev' & _). congruence. }
  split.
  - intros c v Hin Hel. rewrite Hb in Hin. apply in_app_or in Hin.
    destruct Hin as [Hin|[<-|Hin]].
    + destruct (Hpre c v Hin Hel) as [L|[L1 L2]]; split; intros; lra.
    + rewrite (Hself v Hel). split; intros; lra.
    + exact (Hpost c v Hin Hel).
  - intros c v Hin Hel [E1 E2].
    destruct (Hpre c v Hin Hel) as [L|[_ L]]; lra.
Qed.

Lemma selector_min_capacity_then_volume_then_first_witness :
  exists b vol alt det pre post,
    escolher_box_por_altura ex_boxes [ex_geladeiras]
      = Ret (Escolhido b vol alt det)
    /\ elegivel [ex_geladeiras] b vol
    /\ ex_boxes = pre ++ b :: post
    /\ (forall c v, In c ex_boxes -> elegivel [ex_geladeiras] c v ->
          (Metros_Cubicos b <= Metros_Cubicos c)%Q
          /\ ((Metros_Cubicos b == Metros_Cubicos c)%Q -> (vol <= v)%Q))
    /\ (forall c v, In c pre -> elegivel [ex_geladeiras] c v ->
          ~ ((Metros_Cubicos b == Metros_Cubicos c)%Q /\ (vol == v)%Q)).
Proof.
  apply (selector_min_capacity_then_volume_then_first [ex_geladeiras] ex_boxes).
  exists box_C. eexists. split.
  - simpl. auto.
  - eexists. eexists.
    split; [vm_compute; reflexivity|vm_compute; discriminate].
Defined.

(** C4. A chosen container is one of the candidates, the volume returned
    with it is the estimator's total (slack included) for that container's
    height, and the container's capacity is at least that volume. *)
Theorem chosen_capacity_covers_volume itens boxes b vol alt det :
  escolher_box_por_altura boxes itens = Ret (Escolhido b vol alt det) ->
  In b boxes
  /\ volume_para_box itens (Altura b) folga_padrao = Ret (Estimado vol alt det)
  /\ (vol <= Metros_Cubicos b)%Q.
Proof.
  intros E.
  destruct (escolhido_spec _ _ _ _ _ _ E) as (pre & post & -> & Ev & Hle & _).
  split; [apply in_elt|]. split; assumption.
Qed.

Lemma chosen_capacity_covers_volume_witness :
  In box_B ex_boxes
  /\ volume_para_box [ex_geladeiras; ex_caixas] (Altura box_B) folga_padrao
     = Ret (Estimado (3335000 # 1000000) (180 # 100)
              [DetNaoEmpilha 2 "geladeira" (240 # 100) (180 # 100);
               DetPilhas 10 "caixa pequena" 5 (50 # 100) 2 (80 # 100)])
  /\ (3335000 # 1000000 <= Metros_Cubicos box_B)%Q.
Proof.
  apply (chosen_capacity_covers_volume [ex_geladeiras; ex_caixas] ex_boxes).
  vm_compute. reflexivity.
Defined.



(** Some eligible candidate makes the selector choose. *)
Lemma escolher_existe itens boxes :
  (exists c v, In c boxes /\ elegivel itens c v) ->
  exists b vol alt det,
    escolher_box_por_altura boxes itens = Ret (Escolhido b vol alt det).
Proof.
  intros (c & v & Hin & He).
  apply (escolher_nenhum itens boxes (elegivel_alturas_ok _ _ _ He)).
  destruct (elegivel_in_candidatos _ _ _ _ Hin He) as (a & d & Hx).
  intros Hnil. rewrite Hnil in Hx. contradiction.
Qed.

(** C9. With no items, and candidates of non-negative capacity (the data
    model has capacities above zero): the estimator gives total volume 0 at
    every height, every candidate is eligible with volume 0, and the
    selector returns the first candidate, in the provider's order, among
    those of least capacity. *)
Theorem empty_list_picks_first_smallest boxes :
  boxes <> [] ->
  Forall (fun b => (0 <= Metros_Cubicos b)%Q) boxes ->
  (forall H folga, exists T,
      volume_para_box [] H folga = Ret (Estimado T 0 []) /\ (T == 0)%Q)
  /\ (forall b, In b boxes -> exists v, elegivel [] b v /\ (v == 0)%Q)
  /\ exists b vol pre post,
       escolher_box_por_altura boxes [] = Ret (Escolhido b vol 0 [])
       /\ (vol == 0)%Q
       /\ boxes = pre ++ b :: post
       /\ (forall c, In c pre -> (Metros_Cubicos b < Metros_Cubicos c)%Q)
       /\ (forall c, In c post -> (Metros_Cubicos b <= Metros_Cubicos c)%Q).
Proof.
  intros Hne Hcap.
  assert (Hvol : forall H folga, exists T,
             volume_para_box [] H folga = Ret (Estimado T 0 []) /\ (T == 0)%Q).
  { intros H folga. exists (0 * (1 + folga))%Q. split; [reflexivity|lra]. }
  assert (Hel : forall b, In b boxes -> exists v, elegivel [] b v /\ (v == 0)%Q).
  { intros b Hin. destruct (Hvol (Altura b) folga_padrao) as (T & E & HT).
    exists T. split; [|exact HT]. exists 0%Q, []. split; [exact E|].
    rewrite Forall_forall in Hcap. specialize (Hcap b Hin). lra. }
  split; [exact Hvol|]. split; [exact Hel|].
  destruct boxes as [|b0 bs]; [congruence|].
  destruct (Hel b0 (or_introl eq_refl)) as (v0 & He0 & _).
  destruct (escolher_existe [] (b0 :: bs)) as (b & vol & alt & det & E);
    [eauto using in_eq|].
  destruct (escolhido_spec _ _ _ _ _ _ E)
    as (pre & post & Hb & Ev & Hle & Hpre & Hpost).
  destruct (Hvol (Altura b) folga_padrao) as (T & ET & HT).
  rewrite ET in Ev. injection Ev as -> <- <-.
  exists b, vol, pre, post. split; [exact E|]. split; [exact HT|].
  split; [exact Hb|]. split.
  - intros c Hin.
    destruct (Hel c) as (v & Hv & Hv0); [rewrite Hb; apply in_or_app; now left|].
    destruct (Hpre c v Hin Hv) as [L|[_ L]]; lra.
  - intros c Hin.
    destruct (Hel c) as (v & Hv & Hv0);
      [rewrite Hb; apply in_or_app; right; now right|].
    now destruct (Hpost c v Hin Hv).
Qed.

Lemma empty_list_picks_first_smallest_witness :
  (forall H folga, exists T,
      volume_para_box [] H folga = Ret (Estimado T 0 []) /\ (T == 0)%Q)
  /\ (forall b, In b ex_boxes -> exists v, elegivel [] b v /\ (v == 0)%Q)
  /\ exists b vol pre post,
       escolher_box_por_altura ex_boxes [] = Ret (Escolhido b vol 0 [])
       /\ (vol == 0)%Q
       /\ ex_boxes = pre ++ b :: post
       /\ (forall c, In c pre -> (Metros_Cubicos b < Metros_Cubicos c)%Q)
       /\ (forall c, In c post -> (Metros_Cubicos b <= Metros_Cubicos c)%Q).
Proof.
  apply (empty_list_picks_first_smallest ex_boxes).
  - discriminate.
  - repeat constructor; vm_compute; discriminate.
Defined.

(** ** Claims on the estimator *)











(** ** The normaliser *)

Lemma dict_get_in {V : Type} (k : string) (d : list (string * V)) (v : V) :
  dict_get k d = Some v -> exists k', String.eqb k k' = true /\ In (k', v) d.
Proof.
  induction d as [|[k' v'] r IH]; [discriminate|]. cbn [dict_get].
  destruct (String.eqb k k') eqn:E.
  - intros [= ->]. exists k'. split; [exact E|now left].
  - intros H. destruct (IH H) as (k2 & E2 & Hin). exists k2. split; [exact E2|now right].
Qed.

Lemma slug_to_nome_ok : forallb entrada_ok slug_to_nome = true.
Proof. vm_compute. reflexivity. Qed.

Lemma catalogo_chaves_ok : forallb chave_ok (keys catalogo) = true.
Proof. vm_compute. reflexivity. Qed.

(** What the slug table gives is a key of the catalogue with sound data. *)
Lemma slug_to_nome_some slug n :
  dict_get slug slug_to_nome = Some n ->
  slugify n = slug /\ String.eqb n "" = false /\ In n (keys catalogo)
  /\ exists meta,
       dict_get n catalogo = Some meta
       /\ (0 < meta_m3 meta)%Q
       /\ (0 < get_or (meta_altura meta) (5 # 10))%Q
       /\ 1 <= get_or (meta_max_emp meta) 1.
Proof.
  intros E. destruct (dict_get_in _ _ _ E) as (k' & Ek & Hin).
  apply String.eqb_eq in Ek. subst k'.
  pose proof slug_to_nome_ok as Hall. rewrite forallb_forall in Hall.
  specialize (Hall _ Hin). unfold entrada_ok in Hall. cbn [fst snd] in Hall.
  rewrite !andb_true_iff in Hall. destruct Hall as [[[H1 H2] H3] H4].
  apply String.eqb_eq in H1. apply negb_true_iff in H2.
  apply existsb_exists in H3. destruct H3 as (k & Hk & Ek).
  apply String.eqb_eq in Ek. subst k.
  split; [exact H1|]. split; [exact H2|]. split; [exact Hk|].
  destruct (dict_get n catalogo) as [meta|]; [|discriminate].
  rewrite !andb_true_iff in H4. destruct H4 as [[A B] C].
  exists meta. split; [reflexivity|].
  apply Qlt_bool_iff in A. apply Qlt_bool_iff in B. apply Z.leb_le in C.
  auto.
Qed.

Lemma resolve_iff slug :
  resolve slug = true <-> exists n, dict_get slug slug_to_nome = Some n.
Proof.
  unfold resolve. rewrite existsb_exists. split.
  - intros (k & Hk & Ek). apply String.eqb_eq in Ek. subst slug.
    pose proof catalogo_chaves_ok as Hall. rewrite forallb_forall in Hall.
    specialize (Hall k Hk). unfold chave_ok in Hall.
    destruct (dict_get (slugify k) slug_to_nome) as [n|]; [eauto|discriminate].
  - intros (n & E). destruct (slug_to_nome_some _ _ E) as (H1 & _ & H3 & _).
    exists n. split; [exact H3|]. now apply String.eqb_eq.
Qed.

Lemma itens_de_valida e :
  valida e = true ->
  exists it,
    itens_de e = [it] /\ slugify (nome it) = fst e /\ qtd it = snd e
    /\ normalizado it /\ In (nome it) (keys catalogo).
Proof.
  destruct e as [slug q]. unfold valida. cbn [fst snd].
  rewrite andb_true_iff. intros [Hq Hr]. apply Z.ltb_lt in Hq.
  apply resolve_iff in Hr. destruct Hr as [n En].
  destruct (slug_to_nome_some _ _ En) as (H1 & H2 & H3 & meta & Em & A & B & C).
  unfold itens_de, calcular_passo.
  destruct (q <=? 0) eqn:Eq; [apply Z.leb_le in Eq; lia|].
  rewrite En, H2, Em. cbn [app].
  eexists. split; [reflexivity|]. cbn [nome qtd]. unfold normalizado.
  cbn [qtd m3 altura max_emp]. auto 10.
Qed.

Lemma itens_de_invalida e : valida e = false -> itens_de e = [].
Proof.
  destruct e as [slug q]. unfold valida. cbn [fst snd].
  rewrite andb_false_iff. unfold itens_de, calcular_passo.
  destruct (q <=? 0) eqn:Eq; [reflexivity|]. apply Z.leb_gt in Eq.
  intros [Hq|Hr]; [apply Z.ltb_ge in Hq; lia|].
  destruct (dict_get slug slug_to_nome) as [n|] eqn:En; [|reflexivity].
  assert (Hr' : resolve slug = true) by (apply resolve_iff; eauto).
  congruence.
Qed.

Lemma calcular_passo_itens_de acc e :
  calcular_passo catalogo slug_to_nome acc e = Ret (acc ++ itens_de e).
Proof.
  destruct e as [slug q]. unfold itens_de, calcular_passo.
  destruct (q <=? 0); [now rewrite app_nil_r|].
  destruct (dict_get slug slug_to_nome) as [n|] eqn:En; [|now rewrite app_nil_r].
  destruct (slug_to_nome_some _ _ En) as (_ & H2 & _ & meta & Em & _).
  rewrite H2, Em. reflexivity.
Qed.

Lemma calcular_itens_eq d :
  calcular_itens d = Ret (flat_map itens_de d).
Proof.
  unfold calcular_itens.
  assert (H : forall acc,
             for_each (calcular_passo catalogo slug_to_nome) d acc
             = Ret (acc ++ flat_map itens_de d)).
  { induction d as [|e r IH]; intros acc; cbn [for_each flat_map].
    - now rewrite app_nil_r.
    - rewrite calcular_passo_itens_de. cbn [bind]. rewrite IH.
      now rewrite app_assoc. }
  exact (H []).
Qed.

Lemma itens_de_filter d :
  map (fun it => (slugify (nome it), qtd it)) (flat_map itens_de d)
    = filter valida d
  /\ Forall normalizado (flat_map itens_de d)
  /\ Forall (fun it => In (nome it) (keys catalogo)) (flat_map itens_de d).
Proof.
  induction d as [|e r (IH1 & IH2 & IH3)]; cbn [flat_map filter].
  - repeat split; constructor.
  - destruct (valida e) eqn:Ev.
    + destruct (itens_de_valida e Ev) as (it & -> & H1 & H2 & H3 & H4).
      cbn [app map]. rewrite H1, H2, IH1. destruct e.
      repeat split; [constructor; assumption..].
    + rewrite (itens_de_invalida e Ev). cbn [app]. auto.
Qed.

Lemma subseqb_nil ref : subseqb [] ref = true.
Proof. now destruct ref. Qed.

Lemma subseqb_tail x l ref : subseqb (x :: l) ref = true -> subseqb l ref = true.
Proof.
  revert x l. induction ref as [|r ref IH]; intros x l; [discriminate|].
  cbn [subseqb]. destruct (String.eqb x r).
  - destruct l as [|y l']; [reflexivity|]. intros H.
    destruct (String.eqb y r); [now apply IH with (x := y)|exact H].
  - intros H. apply IH in H. destruct l as [|y l']; [reflexivity|].
    destruct (String.eqb y r); [now apply IH with (x := y)|exact H].
Qed.

Lemma subseqb_skip k l ref : subseqb l ref = true -> subseqb l (k :: ref) = true.
Proof.
  intros H. destruct l as [|x l']; [reflexivity|]. cbn [subseqb].
  destruct (String.eqb x k); [now apply subseqb_tail with (x := x)|exact H].
Qed.

Lemma subseqb_filter {V : Type} (p : string * V -> bool) (d : list (string * V)) :
  subseqb (keys (filter p d)) (keys d) = true.
Proof.
  unfold keys. induction d as [|[k v] r IH]; [reflexivity|].
  cbn [filter]. destruct (p (k, v)).
  - cbn [map fst subseqb]. now rewrite String.eqb_refl.
  - cbn [map fst]. now apply subseqb_skip.
Qed.

Lemma dict_set_novo {V : Type} (k : string) (v : V) (d : list (string * V)) :
  ~ In k (keys d) -> dict_set k v d = d ++ [(k, v)].
Proof.
  unfold keys. induction d as [|[k' v'] r IH]; [reflexivity|].
  cbn [map fst In dict_set app]. intros H.
  destruct (String.eqb k k') eqn:E.
  - apply String.eqb_eq in E. subst. tauto.
  - rewrite IH by tauto. reflexivity.
Qed.

Lemma itens_ui_slugs_nodup : NoDup (map ui_slug itens_ui).
Proof.
  assert (E : nodup string_dec (map ui_slug itens_ui) = map ui_slug itens_ui)
    by (vm_compute; reflexivity).
  rewrite <- E. apply NoDup_nodup.
Qed.

(** Filling a dictionary with fresh keys appends the entries. *)
Lemma fold_dict_set {X V : Type} (f : X -> string) (g : X -> V) (l : list X) :
  NoDup (map f l) ->
  forall acc,
    (forall x, In x l -> ~ In (f x) (keys acc)) ->
    fold_left (fun d x => dict_set (f x) (g x) d) l acc
      = acc ++ map (fun x => (f x, g x)) l.
Proof.
  induction l as [|x r IH]; intros Hnd acc Hfresh; cbn [fold_left map].
  - now rewrite app_nil_r.
  - cbn [map] in Hnd. inversion Hnd as [|? ? Hx Hr]; subst.
    rewrite dict_set_novo by (apply Hfresh; now left).
    rewrite IH; [now rewrite <- app_assoc|exact Hr|].
    intros y Hy. unfold keys. rewrite map_app, in_app_iff. cbn [map fst In].
    intros [H|[H|[]]].
    + apply (Hfresh y); [now right|exact H].
    + apply Hx. rewrite H. now apply in_map.
Qed.


Lemma ler_form_eq (py_int : string -> option Z) (form : list (string * string)) :
  ler_form py_int form
    = map (fun it => (ui_slug it, ler_qtd py_int form (ui_slug it))) itens_ui.
Proof.
  unfold ler_form.
  rewrite (fold_dict_set ui_slug (fun it => ler_qtd py_int form (ui_slug it)));
    [reflexivity|exact itens_ui_slugs_nodup|intros x _ []].
Qed.

(** ** Claims on the normaliser *)

(** C7, as stated, fails: for the request that asks for a geladeira and
    then a sofa, the output lists the geladeira first, while the catalogue
    lists the sofa first. *)
Lemma output_in_catalogue_order_fails :
  ~ (forall d l,
        calcular_itens d = Ret l ->
        subseqb (map nome l) (keys catalogo) = true).
Proof.
  intros H.
  specialize (H [("geladeira", 1); ("sofa", 1)]
                [ mk_item "geladeira" 1 (120 # 100) false 1 (180 # 100);
                  mk_item "sofa" 1 (250 # 100) false 1 (100 # 100) ]
                eq_refl).
  vm_compute in H. discriminate.
Qed.

(** C7, amended.  The output follows the order of the entries of the
    request: the slugs of the names of the output are the identifiers of the
    surviving entries, in the order of the request.  The request that the
    route handler builds has the order of [itens_ui], the items sorted by
    name, so the output of the handler follows that order. *)
Theorem output_in_request_order (py_int : string -> option Z) :
  (forall d, exists l,
      calcular_itens d = Ret l
      /\ map (fun it => slugify (nome it)) l = keys (filter valida d)
      /\ subseqb (map (fun it => slugify (nome it)) l) (keys d) = true)
  /\ (forall form, exists l,
        calcular_itens (ler_form py_int form) = Ret l
        /\ subseqb (map (fun it => slugify (nome it)) l)
             (map ui_slug itens_ui) = true).
Proof.
  assert (H : forall d, exists l,
             calcular_itens d = Ret l
             /\ map (fun it => slugify (nome it)) l = keys (filter valida d)
             /\ subseqb (map (fun it => slugify (nome it)) l) (keys d) = true).
  { intros d. exists (flat_map itens_de d). split; [apply calcular_itens_eq|].
    destruct (itens_de_filter d) as [E _].
    assert (E' : map (fun it => slugify (nome it)) (flat_map itens_de d)
                 = keys (filter valida d)).
    { unfold keys. rewrite <- E, map_map. reflexivity. }
    split; [exact E'|]. rewrite E'. apply subseqb_filter. }
  split; [exact H|].
  intros form. destruct (H (ler_form py_int form)) as (l & E & _ & Hs).
  exists l. split; [exact E|].
  rewrite ler_form_eq in Hs. unfold keys in Hs. rewrite map_map in Hs.
  exact Hs.
Qed.


(** The handler raises nothing up to the selection, whatever the form and
    the boxes. *)
Lemma index_post_ret (py_int : string -> option Z) df_boxes form :
  exists itens e, index_post py_int df_boxes form = Ret (itens, e).
Proof.
  unfold index_post. rewrite calcular_itens_eq. cbn [bind].
  destruct (itens_de_filter (ler_form py_int form)) as (_ & Hn & _).
  apply normalizado_alturas_ok in Hn.
  destruct (escolher_nenhum _ df_boxes Hn) as [H0 H1].
  destruct (flat_map (candidato_de (flat_map itens_de (ler_form py_int form)))
              df_boxes) as [|c cs] eqn:E.
  - rewrite (H0 eq_refl). cbn [bind]. eauto.
  - destruct H1 as (b & v & a & d & ->); [discriminate|]. cbn [bind]. eauto.
Qed.

(** A form with blanks around a number, a negative number, a word, an empty
    field and a field of no item: two items survive, in the order of
    [itens_ui]. *)
Example index_post_ex_form :
  index_post int_decimal ex_boxes ex_form
    = Ret ([ mk_item "geladeira" 2 (120 # 100) false 1 (180 # 100);
             mk_item "sofa" 1 (250 # 100) false 1 (100 # 100) ],
           Escolhido box_A (5635000 # 1000000) (180 # 100)
             [ DetNaoEmpilha 2 "geladeira" (240 # 100) (180 # 100);
               DetNaoEmpilha 1 "sofa" (250 # 100) (100 # 100) ]).
Proof. vm_compute. reflexivity. Qed.

(** ** Worked cases of the specification *)

Example slugify_cadeira : slugify "cadeira de jantar" = "cadeira_de_jantar".
Proof. reflexivity. Qed.

Example slugify_misto :
  slugify "  Sofa-Cama / 2  lugares! " = "sofa_cama_2_lugares".
Proof. vm_compute. reflexivity. Qed.

(** Scenario A: two geladeiras, one candidate of capacity 3 and height 2:
    total volume 2.76, the candidate is chosen. *)
Example scenario_A :
  escolher_box_por_altura [mk_box "S" 1 (3 # 2) 2 3] [ex_geladeiras]
    = Ret (Escolhido (mk_box "S" 1 (3 # 2) 2 3) (27600 # 10000) (180 # 100)
             [DetNaoEmpilha 2 "geladeira" (240 # 100) (180 # 100)]).
Proof. vm_compute. reflexivity. Qed.

(** Scenario B: ten caixas pequenas under a height of 1: two layers, five
    stacks, volume 0.575. *)
Example scenario_B :
  exists T,
    volume_para_box [ex_caixas] 1 folga_padrao
      = Ret (Estimado T (80 # 100)
               [DetPilhas 10 "caixa pequena" 5 (50 # 100) 2 (80 # 100)])
    /\ (T == 575 # 1000)%Q.
Proof. eexists. split; [vm_compute; reflexivity|reflexivity]. Qed.

(** Scenario C: a stackable item of height 0.40 under a height of 0.30. *)
Example scenario_C :
  volume_para_box [ex_geladeiras; ex_caixas] (Altura box_baixo) folga_padrao
    = Ret (NaoCabe "caixa pequena" (40 # 100) (3 # 10)).
Proof. vm_compute. reflexivity. Qed.

(** Scenario D: no candidate with enough capacity. *)
Example scenario_D :
  escolher_box_por_altura [box_baixo] [ex_geladeiras]
    = Ret (Nenhum motivo_nenhum_box).
Proof. vm_compute. reflexivity. Qed.

(** A capacity below zero is below the volume 0 of the empty list. *)
Example capacidade_negativa :
  escolher_box_por_altura [mk_box "X" 1 1 1 (-1)] []
    = Ret (Nenhum motivo_nenhum_box).
Proof. vm_compute. reflexivity. Qed.

(** * Further properties of the estimator *)

Lemma volume_loop_raise_inv itens H folga :
  forall total mx det e,
    volume_loop itens H total mx det folga = Raise e ->
    e = ZeroDivisionError
    /\ exists pre it post,
         itens = pre ++ it :: post
         /\ Forall (fun x => cabe H x = true) pre /\ alturas_ok pre
         /\ empilhavel it = true /\ (altura it == 0)%Q.
Proof.
  induction itens as [|x r IH]; intros total mx det e E; [discriminate|].
  cbn [volume_loop] in E. destruct (empilhavel x) eqn:Hs.
  - unfold floordiv_int in E. destruct (Qeq_bool (altura x) 0) eqn:Hz.
    + cbn [bind] in E. injection E as <-. split; [reflexivity|].
      exists [], x, r. apply Qeq_bool_iff in Hz.
      repeat split; auto; constructor.
    + cbn [bind] in E. fold (camadas x H) in E.
      destruct (camadas x H <? 1) eqn:Hc; [discriminate|].
      apply IH in E. destruct E as (-> & pre & it & post & -> & H1 & H2 & H3).
      split; [reflexivity|]. exists (x :: pre), it, post.
      split; [reflexivity|]. split; [|split; [|exact H3]].
      * constructor; [|exact H1]. unfold cabe. rewrite Hs. cbn.
        apply Z.ltb_ge in Hc. apply Z.leb_le. lia.
      * constructor; [|exact H2]. intros _. now apply Qeq_bool_false.
  - apply IH in E. destruct E as (-> & pre & it & post & -> & H1 & H2 & H3).
    split; [reflexivity|]. exists (x :: pre), it, post.
    split; [reflexivity|]. split; [|split; [|exact H3]].
    + constructor; [|exact H1]. unfold cabe. now rewrite Hs.
    + constructor; [|exact H2]. intros Hs'. congruence.
Qed.



(** X2. The infeasibility the estimator reports is that of the first item,
    in the order of the list, that does not fit: the items after it are not
    looked at, whatever they are. *)
Theorem estimator_reports_first_item_that_does_not_fit
  pre it post H folga :
  Forall (fun x => cabe H x = true) pre -> alturas_ok (pre ++ [it]) ->
  cabe H it = false ->
  volume_para_box (pre ++ it :: post) H folga
    = Ret (NaoCabe (nome it) (altura it) H).
Proof.
  intros Hc Hok Hit. unfold volume_para_box.
  now apply volume_loop_primeiro_nao_cabe.
Qed.

Lemma estimator_reports_first_item_that_does_not_fit_witness :
  volume_para_box ([ex_geladeiras] ++ ex_caixas :: [ex_colchoes_zero])
    (3 # 10) folga_padrao
    = Ret (NaoCabe (nome ex_caixas) (altura ex_caixas) (3 # 10)).
Proof.
  apply (estimator_reports_first_item_that_does_not_fit
           [ex_geladeiras] ex_caixas [ex_colchoes_zero] (3 # 10) folga_padrao).
  - repeat constructor.
  - repeat constructor; intros _; vm_compute; discriminate.
  - reflexivity.
Defined.

(** X3. When the estimator succeeds, the breakdown has one line for each
    item, in the order of the items, and the line of an item carries its
    quantity and its name. *)
Theorem breakdown_has_one_line_per_item itens H folga T P det :
  volume_para_box itens H folga = Ret (Estimado T P det) ->
  det = map (linha H) itens
  /\ List.length det = List.length itens
  /\ map det_qtd_nome det = map (fun it => (qtd it, nome it)) itens.
Proof.
  intros E. pose proof E as E'. unfold volume_para_box in E'.
  apply volume_loop_estimado_inv in E'. destruct E' as [Hok _].
  destruct (volume_para_box_casos itens H folga Hok)
    as [(_ & T' & P' & E1 & _)|(_ & it & _ & _ & _ & E1)]; [|congruence].
  rewrite E in E1. injection E1 as -> -> ->.
  split; [reflexivity|]. split; [apply length_map|].
  rewrite map_map. apply map_ext. intros it. unfold linha.
  now destruct (empilhavel it).
Qed.

Lemma breakdown_has_one_line_per_item_witness :
  [DetNaoEmpilha 2 "geladeira" (240 # 100) (180 # 100);
   DetPilhas 10 "caixa pequena" 5 (50 # 100) 2 (80 # 100)]
    = map (linha 1) [ex_geladeiras; ex_caixas]
  /\ List.length [DetNaoEmpilha 2 "geladeira" (240 # 100) (180 # 100);
             DetPilhas 10 "caixa pequena" 5 (50 # 100) 2 (80 # 100)]
     = List.length [ex_geladeiras; ex_caixas]
  /\ map det_qtd_nome
       [DetNaoEmpilha 2 "geladeira" (240 # 100) (180 # 100);
        DetPilhas 10 "caixa pequena" 5 (50 # 100) 2 (80 # 100)]
     = map (fun it => (qtd it, nome it)) [ex_geladeiras; ex_caixas].
Proof.
  apply (breakdown_has_one_line_per_item [ex_geladeiras; ex_caixas] 1
           folga_padrao (3335000 # 1000000) (180 # 100)).
  vm_compute. reflexivity.
Defined.

Lemma estimado_casos itens H folga T P det :
  volume_para_box itens H folga = Ret (Estimado T P det) ->
  alturas_ok itens
  /\ Forall (fun it => cabe H it = true) itens
  /\ det = map (linha H) itens
  /\ (T == soma_contribs itens H * (1 + folga))%Q
  /\ (0 <= P)%Q
  /\ (forall it, In it itens -> (contrib_altura it H <= P)%Q)
  /\ (P = 0%Q \/ exists it, In it itens /\ P = contrib_altura it H).
Proof.
  intros E. pose proof E as E'. unfold volume_para_box in E'.
  apply volume_loop_estimado_inv in E'. destruct E' as [Hok Hc].
  destruct (volume_para_box_casos itens H folga Hok)
    as [(_ & T' & P' & E1 & HT & HP & Hall & Hatt)|(_ & it & _ & _ & _ & E1)];
    [|congruence].
  rewrite E in E1. injection E1 as -> -> ->. auto 10.
Qed.

Lemma cabe_camadas H it :
  empilhavel it = true -> cabe H it = true -> 1 <= camadas it H.
Proof.
  intros Hs Hc. unfold cabe in Hc. rewrite Hs in Hc. cbn in Hc.
  now apply Z.leb_le.
Qed.

Lemma camadas_vezes_altura it H :
  (0 < altura it)%Q -> (inject_Z (camadas it H) * altura it <= H)%Q.
Proof.
  intros Ha. unfold camadas.
  apply Qle_trans with (inject_Z (Qfloor (H / altura it)) * altura it)%Q.
  - apply Qmult_le_r; [exact Ha|]. rewrite <- Zle_Qle. apply Z.le_min_l.
  - rewrite <- (Qdiv_mult_cancel H (altura it) Ha) at 2.
    apply Qmult_le_r; [exact Ha|]. apply Qfloor_le.
Qed.

Lemma contrib_altura_empilhavel_le it H :
  empilhavel it = true -> (0 < altura it)%Q ->
  (contrib_altura it H <= H)%Q.
Proof.
  intros Hs Ha. unfold contrib_altura. rewrite Hs.
  apply Qle_trans with (inject_Z (camadas it H) * altura it)%Q.
  - apply Qmult_le_r; [exact Ha|]. rewrite <- Zle_Qle. apply Z.le_min_l.
  - now apply camadas_vezes_altura.
Qed.

(** X4. When every item stacks, the peak height the estimator returns is
    within the container height: the piles are cut to the height, and only
    an item that does not stack can stand above it. *)
Theorem peak_of_stackable_items_within_height itens H folga T P det :
  itens <> [] ->
  Forall (fun it => empilhavel it = true /\ (0 < altura it)%Q) itens ->
  volume_para_box itens H folga = Ret (Estimado T P det) ->
  (P <= H)%Q.
Proof.
  intros Hne Hall E.
  destruct (estimado_casos _ _ _ _ _ _ E) as (_ & Hc & _ & _ & _ & _ & Hatt).
  rewrite Forall_forall in Hall, Hc.
  destruct Hatt as [->|(it & Hin & ->)].
  - destruct itens as [|x r]; [congruence|].
    destruct (Hall x (or_introl eq_refl)) as [Hs Ha].
    pose proof (cabe_camadas H x Hs (Hc x (or_introl eq_refl))) as H1.
    pose proof (camadas_vezes_altura x H Ha) as H2.
    assert (H3 : (inject_Z 1 <= inject_Z (camadas x H))%Q)
      by (rewrite <- Zle_Qle; exact H1).
    assert (H4 : (inject_Z 1 * altura x <= inject_Z (camadas x H) * altura x)%Q)
      by (apply Qmult_le_r; assumption).
    change (inject_Z 1) with 1%Q in H4. lra.
  - destruct (Hall it Hin) as [Hs Ha].
    now apply contrib_altura_empilhavel_le.
Qed.

Lemma peak_of_stackable_items_within_height_witness : (80 # 100 <= 1)%Q.
Proof.
  apply (peak_of_stackable_items_within_height [ex_caixas] 1 folga_padrao
           (5750 # 10000) (80 # 100)
           [DetPilhas 10 "caixa pequena" 5 (50 # 100) 2 (80 # 100)]).
  - discriminate.
  - repeat constructor.
  - vm_compute. reflexivity.
Defined.

Lemma ceil_div_le_n (n d : Z) : 1 <= n -> 1 <= d -> 1 <= ceil_div n d <= n.
Proof.
  intros Hn Hd. pose proof (ceil_div_spec n d Hd) as Hc. nia.
Qed.


Lemma contrib_volume_limites it H :
  1 <= qtd it -> (0 <= m3 it)%Q -> cabe H it = true ->
  (0 <= contrib_volume it H)%Q
  /\ (contrib_volume it H <= inject_Z (qtd it) * m3 it)%Q.
Proof.
  intros Hq Hm Hc. unfold contrib_volume.
  assert (Hq0 : (0 <= inject_Z (qtd it))%Q).
  { change 0%Q with (inject_Z 0). rewrite <- Zle_Qle. lia. }
  destruct (empilhavel it) eqn:Hs.
  - pose proof (cabe_camadas H it Hs Hc) as Hl.
    pose proof (ceil_div_le_n (qtd it) (camadas it H) Hq Hl) as [Hp1 Hp2].
    assert (A : (inject_Z 0 <= inject_Z (ceil_div (qtd it) (camadas it H)))%Q)
      by (rewrite <- Zle_Qle; lia).
    assert (B : (inject_Z (ceil_div (qtd it) (camadas it H))
                 <= inject_Z (qtd it))%Q)
      by (rewrite <- Zle_Qle; lia).
    change (inject_Z 0) with 0%Q in A. split.
    + now apply Qmult_le_0_compat.
    + now apply Qmult_le_compat_r.
  - split; [now apply Qmult_le_0_compat|apply Qle_refl].
Qed.









Lemma soma_contribs_app l1 l2 H :
  (soma_contribs (l1 ++ l2) H == soma_contribs l1 H + soma_contribs l2 H)%Q.
Proof.
  induction l1 as [|it r IH]; cbn [app soma_contribs fold_right].
  - now rewrite Qplus_0_l.
  - fold (soma_contribs (r ++ l2) H). fold (soma_contribs r H).
    rewrite IH. ring.
Qed.



(** * Further properties of the selector *)

Lemma for_each_app {A S : Type} (body : S -> A -> res S) (l1 l2 : list A) :
  forall s,
    for_each body (l1 ++ l2) s = s' <- for_each body l1 s ;; for_each body l2 s'.
Proof.
  induction l1 as [|x r IH]; intros s; cbn [app for_each bind]; [reflexivity|].
  destruct (body s x) as [s1|e]; cbn [bind]; [apply IH|reflexivity].
Qed.

Lemma nao_elegivel_candidato itens b :
  (forall v, ~ elegivel itens b v) -> candidato_de itens b = [].
Proof.
  intros Hno. destruct (candidato_de itens b) as [|[[[v a] d] b'] cs] eqn:E;
    [reflexivity|].
  exfalso. destruct (candidato_de_box itens b (v, a, d, b')) as [Ec Eb];
    [rewrite E; now left|].
  cbn in Eb. subst b'. apply (Hno v). apply elegivel_candidato. eauto.
Qed.

(** X8. A candidate that is estimated but is not eligible, because an item
    does not fit its height or because its capacity is below the volume,
    has no part in the result: the selector gives the same with it and
    without it, wherever it stands in the list. *)
Theorem ineligible_candidate_changes_nothing itens pre b post r :
  volume_para_box itens (Altura b) folga_padrao = Ret r ->
  (forall v, ~ elegivel itens b v) ->
  escolher_box_por_altura (pre ++ b :: post) itens
    = escolher_box_por_altura (pre ++ post) itens.
Proof.
  intros Er Hno. unfold escolher_box_por_altura.
  rewrite !for_each_app. cbn [for_each].
  destruct (for_each (escolher_passo itens) pre []) as [cs|e]; [|reflexivity].
  cbn [bind]. rewrite (escolher_passo_ret _ _ _ _ Er).
  rewrite (nao_elegivel_candidato _ _ Hno), app_nil_r. reflexivity.
Qed.

Lemma ineligible_candidate_changes_nothing_witness :
  escolher_box_por_altura ([box_A] ++ box_baixo :: [box_B]) [ex_geladeiras]
    = escolher_box_por_altura ([box_A] ++ [box_B]) [ex_geladeiras].
Proof.
  apply (ineligible_candidate_changes_nothing [ex_geladeiras] [box_A]
           box_baixo [box_B]
           (Estimado (27600 # 10000) (180 # 100)
              [DetNaoEmpilha 2 "geladeira" (240 # 100) (180 # 100)])).
  - vm_compute. reflexivity.
  - intros v (a & d & E & Hle). vm_compute in E.
    injection E as <- _ _. vm_compute in Hle. now apply Hle.
Defined.

Lemma candidatos_todos itens boxes :
  (forall b, In b boxes ->
     exists r, volume_para_box itens (Altura b) folga_padrao = Ret r) ->
  forall acc,
    for_each (escolher_passo itens) boxes acc
      = Ret (acc ++ flat_map (candidato_de itens) boxes).
Proof.
  induction boxes as [|b r IH]; intros Hall acc; cbn [for_each flat_map].
  - now rewrite app_nil_r.
  - destruct (Hall b (or_introl eq_refl)) as [x Hx].
    rewrite (escolher_passo_ret _ _ _ _ Hx). cbn [bind].
    rewrite IH by (intros c Hc; apply Hall; now right).
    now rewrite app_assoc.
Qed.

Lemma candidatos_todos_inv itens boxes :
  forall acc cs,
    for_each (escolher_passo itens) boxes acc = Ret cs ->
    forall b, In b boxes ->
      exists r, volume_para_box itens (Altura b) folga_padrao = Ret r.
Proof.
  induction boxes as [|b r IH]; intros acc cs E c Hc; [contradiction|].
  cbn [for_each] in E.
  destruct (escolher_passo itens acc b) as [s|e] eqn:Eb; [|discriminate].
  cbn [bind] in E. destruct Hc as [<-|Hc]; [|exact (IH _ _ E c Hc)].
  unfold escolher_passo in Eb.
  destruct (volume_para_box itens (Altura b) folga_padrao) as [x|e];
    [eauto|discriminate].
Qed.

Lemma volume_para_box_raise itens H folga e :
  volume_para_box itens H folga = Raise e -> e = ZeroDivisionError.
Proof.
  unfold volume_para_box. intros E. now apply volume_loop_raise_inv in E.
Qed.

Lemma candidatos_raise_inv itens boxes :
  forall acc e,
    for_each (escolher_passo itens) boxes acc = Raise e ->
    e = ZeroDivisionError
    /\ exists b, In b boxes
         /\ volume_para_box itens (Altura b) folga_padrao
            = Raise ZeroDivisionError.
Proof.
  induction boxes as [|b r IH]; intros acc e E; [discriminate|].
  cbn [for_each] in E.
  destruct (escolher_passo itens acc b) as [s|e'] eqn:Eb.
  - cbn [bind] in E. destruct (IH _ _ E) as (-> & c & Hc & Ec).
    split; [reflexivity|]. exists c. split; [now right|exact Ec].
  - cbn [bind] in E. injection E as <-. unfold escolher_passo in Eb.
    destruct (volume_para_box itens (Altura b) folga_padrao) as [x|e0] eqn:Ev.
    + cbn [bind] in Eb. destruct x as [v a d|n a h];
        [destruct (Qle_bool v (Metros_Cubicos b))|]; discriminate.
    + cbn [bind] in Eb. injection Eb as <-.
      pose proof (volume_para_box_raise _ _ _ _ Ev) as He. subst e0.
      split; [reflexivity|]. exists b. split; [now left|exact Ev].
Qed.

Lemma candidatos_raise itens boxes b :
  In b boxes ->
  volume_para_box itens (Altura b) folga_padrao = Raise ZeroDivisionError ->
  forall acc,
    for_each (escolher_passo itens) boxes acc = Raise ZeroDivisionError.
Proof.
  intros Hin Eb. induction boxes as [|c r IH]; intros acc; [contradiction|].
  cbn [for_each].
  destruct (escolher_passo itens acc c) as [s|e] eqn:Ec.
  - cbn [bind]. destruct Hin as [->|Hin]; [|now apply IH].
    unfold escolher_passo in Ec. rewrite Eb in Ec. discriminate.
  - cbn [bind]. unfold escolher_passo in Ec.
    destruct (volume_para_box itens (Altura c) folga_padrao) as [x|e0] eqn:Ev.
    + cbn [bind] in Ec. destruct x as [v a d|n a h];
        [destruct (Qle_bool v (Metros_Cubicos c))|]; discriminate.
    + cbn [bind] in Ec. injection Ec as <-.
      now rewrite (volume_para_box_raise _ _ _ _ Ev).
Qed.

Lemma py_sorted_nao_vazio {A : Type} (lt : A -> A -> bool) (l : list A) :
  l <> [] -> py_sorted lt l <> [].
Proof.
  intros Hne Es. pose proof (hd_py_sorted lt l) as Hh. rewrite Es in Hh.
  destruct (primeiro_min_some lt l Hne) as [m Hm]. cbn in Hh. congruence.
Qed.

Lemma selector_raises_aux itens boxes e :
  escolher_box_por_altura boxes itens = Raise e ->
  e = ZeroDivisionError
  /\ exists b, In b boxes
       /\ volume_para_box itens (Altura b) folga_padrao
          = Raise ZeroDivisionError.
Proof.
  intros E. unfold escolher_box_por_altura in E.
  destruct (for_each (escolher_passo itens) boxes []) as [cs|e0] eqn:Ef.
  - cbn [bind] in E. destruct cs as [|c cs]; [discriminate|].
    destruct (py_sorted chave_lt (c :: cs)) as [|[[[v a] d] b] s] eqn:Es;
      [|discriminate].
    exfalso. now apply (py_sorted_nao_vazio chave_lt (c :: cs)).
  - cbn [bind] in E. injection E as <-.
    exact (candidatos_raise_inv _ _ _ _ Ef).
Qed.


Lemma escolher_ret_inv itens boxes x :
  escolher_box_por_altura boxes itens = Ret x ->
  for_each (escolher_passo itens) boxes []
    = Ret (flat_map (candidato_de itens) boxes).
Proof.
  intros E. unfold escolher_box_por_altura in E.
  destruct (for_each (escolher_passo itens) boxes []) as [cs|e] eqn:Ef;
    [|discriminate].
  now rewrite (candidatos_inv _ _ _ _ Ef).
Qed.

(** The chosen box is least among all the eligible ones. *)
Lemma escolhido_minimo itens boxes b vol alt det :
  escolher_box_por_altura boxes itens = Ret (Escolhido b vol alt det) ->
  In b boxes /\ elegivel itens b vol
  /\ forall c v, In c boxes -> elegivel itens c v ->
       (Metros_Cubicos b <= Metros_Cubicos c)%Q
       /\ ((Metros_Cubicos b == Metros_Cubicos c)%Q -> (vol <= v)%Q).
Proof.
  intros E. destruct (escolhido_spec _ _ _ _ _ _ E)
    as (pre & post & Hb & Ev & Hle & Hpre & Hpost).
  split; [rewrite Hb; apply in_elt|].
  split; [exists alt, det; auto|].
  intros c v Hin Hel. rewrite Hb in Hin. apply in_app_or in Hin.
  destruct Hin as [Hin|[<-|Hin]].
  - destruct (Hpre c v Hin Hel) as [L|[L1 L2]]; split; intros; lra.
  - destruct Hel as (a & d & Ev' & _).
    assert (v = vol) by congruence. subst v. split; intros; lra.
  - exact (Hpost c v Hin Hel).
Qed.

Lemma escolher_por_todos itens boxes :
  (forall b, In b boxes ->
     exists r, volume_para_box itens (Altura b) folga_padrao = Ret r) ->
  (flat_map (candidato_de itens) boxes = [] ->
   escolher_box_por_altura boxes itens = Ret (Nenhum motivo_nenhum_box))
  /\ (flat_map (candidato_de itens) boxes <> [] ->
      exists b vol alt det,
        escolher_box_por_altura boxes itens = Ret (Escolhido b vol alt det)).
Proof.
  intros Hall. pose proof (candidatos_todos itens boxes Hall []) as Hc.
  cbn [app] in Hc. rewrite (escolher_por_candidatos _ _ Hc). split.
  - intros ->. reflexivity.
  - intros Hne. destruct (primeiro_min_some chave_lt _ Hne) as [[[[v a] d] b] ->].
    eauto.
Qed.

(** X10. The order of the candidates matters among full ties only.  For
    two lists with the same candidates in another order: the selector fails
    for the one when it fails for the other, raises for the one when it
    raises for the other, and when it chooses, the two chosen containers
    have the same capacity and the same computed volume. *)
Theorem order_of_candidates_matters_among_ties_only itens boxes boxes' :
  Permutation boxes boxes' ->
  (forall m, escolher_box_por_altura boxes itens = Ret (Nenhum m) ->
     escolher_box_por_altura boxes' itens = Ret (Nenhum m))
  /\ (forall e, escolher_box_por_altura boxes itens = Raise e ->
        escolher_box_por_altura boxes' itens = Raise e)
  /\ (forall b vol alt det,
        escolher_box_por_altura boxes itens = Ret (Escolhido b vol alt det) ->
        exists b' vol' alt' det',
          escolher_box_por_altura boxes' itens
            = Ret (Escolhido b' vol' alt' det')
          /\ (Metros_Cubicos b' == Metros_Cubicos b)%Q /\ (vol' == vol)%Q).
Proof.
  intros Hp.
  assert (Hin : forall b, In b boxes' -> In b boxes).
  { intros b. apply Permutation_in. now symmetry. }
  assert (Hret : forall x, escolher_box_por_altura boxes itens = Ret x ->
             forall b, In b boxes' ->
               exists r, volume_para_box itens (Altura b) folga_padrao = Ret r).
  { intros x E b Hb. apply escolher_ret_inv in E.
    exact (candidatos_todos_inv _ _ _ _ E b (Hin b Hb)). }
  split; [|split].
  - intros m E. pose proof (Hret _ E) as Hall.
    destruct (escolher_por_todos itens boxes' Hall) as [H0 H1].
    assert (Hm : m = motivo_nenhum_box /\ flat_map (candidato_de itens) boxes = []).
    { pose proof (escolher_ret_inv _ _ _ E) as Ef.
      rewrite (escolher_por_candidatos _ _ Ef) in E.
      destruct (flat_map (candidato_de itens) boxes) as [|c cs] eqn:Ec.
      - cbn in E. split; [congruence|reflexivity].
      - destruct (primeiro_min_some chave_lt (c :: cs)) as [[[[v a] d] b] Hm];
          [discriminate|]. rewrite Hm in E. discriminate. }
    destruct Hm as [-> Hnil]. apply H0.
    destruct (flat_map (candidato_de itens) boxes') as [|c cs] eqn:Ec;
      [reflexivity|].
    exfalso. assert (Hc : In c (flat_map (candidato_de itens) boxes'))
      by (rewrite Ec; now left).
    apply in_flat_map in Hc. destruct Hc as (b & Hb & Hcb).
    assert (Hc' : In c (flat_map (candidato_de itens) boxes))
      by (apply in_flat_map; exists b; split; [now apply Hin|exact Hcb]).
    now rewrite Hnil in Hc'.
  - intros e E. destruct (selector_raises_aux itens boxes e E) as (-> & b & Hb & Eb).
    unfold escolher_box_por_altura.
    now rewrite (candidatos_raise itens boxes' b (Permutation_in _ Hp Hb) Eb).
  - intros b vol alt det E. pose proof (Hret _ E) as Hall.
    destruct (escolhido_minimo _ _ _ _ _ _ E) as (Hb & Hel & Hmin).
    destruct (escolher_por_todos itens boxes' Hall) as [_ H1].
    destruct H1 as (b' & vol' & alt' & det' & E').
    { destruct (elegivel_in_candidatos itens boxes' b vol
                  (Permutation_in _ Hp Hb) Hel) as (a & d & Hx).
      intros Hnil. now rewrite Hnil in Hx. }
    exists b', vol', alt', det'. split; [exact E'|].
    destruct (escolhido_minimo _ _ _ _ _ _ E') as (Hb' & Hel' & Hmin').
    destruct (Hmin b' vol' (Hin b' Hb') Hel') as [A1 A2].
    destruct (Hmin' b vol (Permutation_in _ Hp Hb) Hel) as [B1 B2].
    assert (Ec : (Metros_Cubicos b' == Metros_Cubicos b)%Q) by lra.
    split; [exact Ec|].
    assert (Ec' : (Metros_Cubicos b == Metros_Cubicos b')%Q) by lra.
    specialize (A2 Ec'). specialize (B2 Ec). lra.
Qed.

Lemma order_of_candidates_matters_among_ties_only_witness :
  (forall m, escolher_box_por_altura [box_A; box_B; box_C] [ex_geladeiras]
             = Ret (Nenhum m) ->
     escolher_box_por_altura [box_C; box_B; box_A] [ex_geladeiras]
       = Ret (Nenhum m))
  /\ (forall e, escolher_box_por_altura [box_A; box_B; box_C] [ex_geladeiras]
                = Raise e ->
        escolher_box_por_altura [box_C; box_B; box_A] [ex_geladeiras] = Raise e)
  /\ (forall b vol alt det,
        escolher_box_por_altura [box_A; box_B; box_C] [ex_geladeiras]
          = Ret (Escolhido b vol alt det) ->
        exists b' vol' alt' det',
          escolher_box_por_altura [box_C; box_B; box_A] [ex_geladeiras]
            = Ret (Escolhido b' vol' alt' det')
          /\ (Metros_Cubicos b' == Metros_Cubicos b)%Q /\ (vol' == vol)%Q).
Proof.
  apply (order_of_candidates_matters_among_ties_only [ex_geladeiras]
           [box_A; box_B; box_C] [box_C; box_B; box_A]).
  apply Permutation_rev.
Defined.

Lemma soma_contribs_nao_negativa itens H :
  Forall normalizado itens -> Forall (fun it => cabe H it = true) itens ->
  (0 <= soma_contribs itens H)%Q.
Proof.
  induction itens as [|it r IH]; intros Hn Hc; [apply Qle_refl|].
  inversion Hn as [|? ? (Hq & Hm & _) Hr]; subst.
  inversion Hc as [|? ? Hc1 Hc2]; subst.
  cbn [soma_contribs fold_right]. fold (soma_contribs r H).
  destruct (contrib_volume_limites it H) as [C _]; [lia|lra|exact Hc1|].
  specialize (IH Hr Hc2). lra.
Qed.

(** Fewer items keep a candidate eligible, with a volume not greater. *)
Lemma elegivel_com_menos l1 novos l2 b v' :
  Forall normalizado novos ->
  elegivel (l1 ++ novos ++ l2) b v' ->
  exists v, elegivel (l1 ++ l2) b v /\ (v <= v')%Q.
Proof.
  intros Hn (a & d & E & Hle).
  destruct (estimado_casos _ _ _ _ _ _ E) as (Hok & Hc & _ & HT & _).
  unfold alturas_ok in Hok. rewrite !Forall_app in Hok, Hc.
  destruct Hok as (Ok1 & Okn & Ok2). destruct Hc as (C1 & Cn & C2).
  assert (Hok' : alturas_ok (l1 ++ l2)) by (apply Forall_app; auto).
  assert (Hc' : forallb (cabe (Altura b)) (l1 ++ l2) = true).
  { apply forallb_forall. apply Forall_forall. apply Forall_app; auto. }
  destruct (volume_para_box_casos (l1 ++ l2) (Altura b) folga_padrao Hok')
    as [(_ & T & P & E' & HT' & _)|(Hf & _)]; [|congruence].
  pose proof (soma_contribs_nao_negativa novos (Altura b) Hn Cn) as Hpos.
  assert (HTT : (T <= v')%Q).
  { rewrite HT, HT', !soma_contribs_app. unfold folga_padrao.
    apply Qmult_le_compat_r; [lra|]. vm_compute. discriminate. }
  exists T. split; [|exact HTT].
  exists P, (map (linha (Altura b)) (l1 ++ l2)). split; [exact E'|lra].
Qed.

(** X11. Asking for more never yields a smaller container.  When the
    selector chooses a container for a list with further normalised items
    in it, it chooses one for the list without them as well, and that one
    has a capacity not greater. *)
Theorem more_items_never_a_smaller_container
  boxes l1 novos l2 b' vol' alt' det' :
  Forall normalizado novos ->
  escolher_box_por_altura boxes (l1 ++ novos ++ l2)
    = Ret (Escolhido b' vol' alt' det') ->
  exists b vol alt det,
    escolher_box_por_altura boxes (l1 ++ l2) = Ret (Escolhido b vol alt det)
    /\ (Metros_Cubicos b <= Metros_Cubicos b')%Q.
Proof.
  intros Hn E.
  destruct (escolhido_minimo _ _ _ _ _ _ E) as (Hb' & Hel' & _).
  destruct (elegivel_com_menos l1 novos l2 b' vol' Hn Hel') as (v & Hel & _).
  destruct (escolher_existe (l1 ++ l2) boxes) as (b & vol & alt & det & Eb);
    [eauto|].
  exists b, vol, alt, det. split; [exact Eb|].
  destruct (escolhido_minimo _ _ _ _ _ _ Eb) as (_ & _ & Hmin).
  now destruct (Hmin b' v Hb' Hel).
Qed.

Lemma more_items_never_a_smaller_container_witness :
  exists b vol alt det,
    escolher_box_por_altura ex_boxes ([ex_geladeiras] ++ [])
      = Ret (Escolhido b vol alt det)
    /\ (Metros_Cubicos b <= Metros_Cubicos box_B)%Q.
Proof.
  apply (more_items_never_a_smaller_container ex_boxes
           [ex_geladeiras] [ex_caixas] [] box_B
           (3335000 # 1000000) (180 # 100)
           [DetNaoEmpilha 2 "geladeira" (240 # 100) (180 # 100);
            DetPilhas 10 "caixa pequena" 5 (50 # 100) 2 (80 # 100)]).
  - repeat constructor; vm_compute; try reflexivity; discriminate.
  - vm_compute. reflexivity.
Defined.

Section OutrasColunas.
Variable f : box -> box.
Hypothesis f_altura : forall b, Altura (f b) = Altura b.
Hypothesis f_volume : forall b, Metros_Cubicos (f b) = Metros_Cubicos b.

Lemma chave_lt_com_box t u :
  chave_lt (cand_com_box f t) (cand_com_box f u) = chave_lt t u.
Proof.
  unfold chave_lt, cand_com_box, cand_box, cand_vol. cbn [fst snd].
  now rewrite !f_volume.
Qed.

Lemma insert_com_box x l :
  insert chave_lt (cand_com_box f x) (map (cand_com_box f) l)
    = map (cand_com_box f) (insert chave_lt x l).
Proof.
  induction l as [|y r IH]; [reflexivity|]. cbn [map insert].
  rewrite chave_lt_com_box. destruct (chave_lt y x); cbn [map]; [|reflexivity].
  now rewrite IH.
Qed.

Lemma py_sorted_com_box l :
  py_sorted chave_lt (map (cand_com_box f) l)
    = map (cand_com_box f) (py_sorted chave_lt l).
Proof.
  induction l as [|x r IH]; [reflexivity|]. cbn [map py_sorted].
  now rewrite IH, insert_com_box.
Qed.

Lemma candidatos_com_box itens boxes :
  forall acc,
    for_each (escolher_passo itens) (map f boxes) (map (cand_com_box f) acc)
      = match for_each (escolher_passo itens) boxes acc with
        | Ret cs => Ret (map (cand_com_box f) cs)
        | Raise e => Raise e
        end.
Proof.
  induction boxes as [|b r IH]; intros acc; [reflexivity|].
  cbn [map for_each]. unfold escolher_passo at 1 3. rewrite f_altura, f_volume.
  destruct (volume_para_box itens (Altura b) folga_padrao) as [x|e];
    [|reflexivity].
  cbn [bind]. destruct x as [v a d|n a h]; [|apply IH].
  destruct (Qle_bool v (Metros_Cubicos b)); cbn [bind]; [|apply IH].
  replace (map (cand_com_box f) acc ++ [(v, a, d, f b)])
    with (map (cand_com_box f) (acc ++ [(v, a, d, b)]))
    by (now rewrite map_app).
  apply IH.
Qed.

End OutrasColunas.

(** X12. The selector reads the height and the capacity of a row and
    nothing else.  Changing the rows in any way that keeps these two (other
    names, widths and lengths) gives the same result, with the chosen row
    changed in the same way; a capacity that is not width times length
    times height goes unnoticed. *)
Theorem selector_reads_height_and_capacity_only
  (f : box -> box) itens boxes :
  (forall b, Altura (f b) = Altura b) ->
  (forall b, Metros_Cubicos (f b) = Metros_Cubicos b) ->
  escolher_box_por_altura (map f boxes) itens
    = escolha_com_box f (escolher_box_por_altura boxes itens).
Proof.
  intros Ha Hv. unfold escolher_box_por_altura.
  pose proof (candidatos_com_box f Ha Hv itens boxes []) as Hc.
  cbn [map] in Hc. rewrite Hc.
  destruct (for_each (escolher_passo itens) boxes []) as [cs|e];
    [|reflexivity].
  cbn [bind]. destruct cs as [|c cs]; [reflexivity|].
  change (map (cand_com_box f) (c :: cs))
    with (cand_com_box f c :: map (cand_com_box f) cs) at 1.
  cbv iota. change (cand_com_box f c :: map (cand_com_box f) cs)
    with (map (cand_com_box f) (c :: cs)).
  rewrite (py_sorted_com_box f Hv).
  destruct (py_sorted chave_lt (c :: cs)) as [|[[[v a] d] b] s];
    reflexivity.
Qed.

Lemma selector_reads_height_and_capacity_only_witness :
  escolher_box_por_altura (map renomear ex_boxes) [ex_geladeiras]
    = escolha_com_box renomear
        (escolher_box_por_altura ex_boxes [ex_geladeiras]).
Proof.
  apply (selector_reads_height_and_capacity_only renomear
           [ex_geladeiras] ex_boxes); reflexivity.
Defined.

(** * Further properties of the normaliser *)

Lemma dict_get_set {V : Type} (k k' : string) (v : V) (d : list (string * V)) :
  dict_get k (dict_set k' v d)
    = if String.eqb k k' then Some v else dict_get k d.
Proof.
  induction d as [|[k2 v2] r IH]; cbn [dict_set dict_get].
  - reflexivity.
  - destruct (String.eqb k' k2) eqn:E2; cbn [dict_get].
    + apply String.eqb_eq in E2. subst k2.
      now destruct (String.eqb k k').
    + destruct (String.eqb k k2) eqn:E; [|exact IH].
      destruct (String.eqb k k') eqn:E'; [|reflexivity].
      apply String.eqb_eq in E, E'. subst. rewrite String.eqb_refl in E2.
      discriminate.
Qed.

Lemma dict_get_keys {V : Type} (k : string) (d : list (string * V)) :
  In k (keys d) <-> exists v, dict_get k d = Some v.
Proof.
  unfold keys. induction d as [|[k' v'] r IH]; cbn [map fst In dict_get].
  - split; [intros []|intros [v E]; discriminate].
  - destruct (String.eqb k k') eqn:E.
    + apply String.eqb_eq in E. subst. split; eauto.
    + rewrite IH. split; [intros [->|H]; [|exact H]|now right].
      rewrite String.eqb_refl in E. discriminate.
Qed.

Lemma slug_table_aux (cat : list (string * meta)) (slug : string) :
  dict_get slug (slugs_de cat)
    = find (fun k => String.eqb (slugify k) slug) (rev (keys cat)).
Proof.
  unfold slugs_de. generalize (keys cat) as ks. intros ks.
  induction ks as [|k ks IH] using rev_ind; [reflexivity|].
  rewrite fold_left_app, rev_unit. cbn [fold_left find].
  rewrite dict_get_set, IH, (String.eqb_sym slug). reflexivity.
Qed.

Lemma find_depois {A : Type} (f : A -> bool) (l r : list A) (k : A) :
  (forall x, In x l -> f x = false) -> f k = true ->
  find f (l ++ k :: r) = Some k.
Proof.
  intros Hl Hk. induction l as [|x l IH]; cbn [app find].
  - now rewrite Hk.
  - rewrite (Hl x (or_introl eq_refl)). apply IH.
    intros y Hy. apply Hl. now right.
Qed.

(** X13. The table of slugs, for any catalogue: an identifier is mapped to
    the last key of the catalogue, in its order, whose slug it is, and to
    nothing when it is the slug of no key.  What the table gives is a key
    of the catalogue with that slug, and when two keys share a slug the
    later one hides the earlier. *)
Theorem slug_table_gives_last_key_with_slug (cat : list (string * meta)) :
  (forall slug,
      dict_get slug (slugs_de cat)
        = find (fun k => String.eqb (slugify k) slug) (rev (keys cat)))
  /\ (forall slug n,
        dict_get slug (slugs_de cat) = Some n ->
        In n (keys cat) /\ slugify n = slug)
  /\ (forall slug,
        (forall k, In k (keys cat) -> slugify k <> slug) ->
        dict_get slug (slugs_de cat) = None)
  /\ (forall pre k m post,
        cat = pre ++ (k, m) :: post ->
        (forall k', In k' (keys post) -> slugify k' <> slugify k) ->
        dict_get (slugify k) (slugs_de cat) = Some k).
Proof.
  split; [exact (slug_table_aux cat)|]. split; [|split].
  - intros slug n E. rewrite slug_table_aux in E. apply find_some in E.
    destruct E as [Hin E]. apply in_rev in Hin. apply String.eqb_eq in E. auto.
  - intros slug Hno. rewrite slug_table_aux.
    destruct (find (fun k => String.eqb (slugify k) slug) (rev (keys cat)))
      as [n|] eqn:E; [|reflexivity].
    apply find_some in E. destruct E as [Hin E]. apply in_rev in Hin.
    apply String.eqb_eq in E. now destruct (Hno n Hin).
  - intros pre k m post -> Hpost. rewrite slug_table_aux. unfold keys.
    rewrite map_app. cbn [map fst]. rewrite rev_app_distr. cbn [rev].
    rewrite <- app_assoc. cbn [app]. apply find_depois.
    + intros x Hx. apply in_rev in Hx. apply String.eqb_neq. now apply Hpost.
    + apply String.eqb_refl.
Qed.

Lemma slugs_de_some (cat : list (string * meta)) (slug n : string) :
  dict_get slug (slugs_de cat) = Some n ->
  In n (keys cat) /\ slugify n = slug.
Proof.
  rewrite slug_table_aux. intros E. apply find_some in E.
  destruct E as [Hin E]. apply in_rev in Hin. apply String.eqb_eq in E. auto.
Qed.

(** What the entries of a request give over a catalogue [cat]. *)
Lemma calcular_passo_cat (cat : list (string * meta)) acc e :
  exists l,
    calcular_passo cat (slugs_de cat) acc e = Ret (acc ++ l)
    /\ (List.length l <= 1)%nat
    /\ Forall (fun it =>
         slugify (nome it) = fst e /\ qtd it = snd e /\ 0 < qtd it
         /\ nome it <> ""
         /\ exists meta,
              dict_get (nome it) cat = Some meta
              /\ m3 it = meta_m3 meta
              /\ empilhavel it = get_or (meta_empilhavel meta) false
              /\ max_emp it = get_or (meta_max_emp meta) 1
              /\ altura it = get_or (meta_altura meta) (5 # 10)) l.
Proof.
  destruct e as [slug q]. unfold calcular_passo.
  assert (Hnil : exists l : list item,
             Ret acc = Ret (acc ++ l) /\ (List.length l <= 1)%nat
             /\ Forall (fun it =>
                  slugify (nome it) = fst (slug, q) /\ qtd it = snd (slug, q)
                  /\ 0 < qtd it /\ nome it <> ""
                  /\ exists meta,
                       dict_get (nome it) cat = Some meta
                       /\ m3 it = meta_m3 meta
                       /\ empilhavel it = get_or (meta_empilhavel meta) false
                       /\ max_emp it = get_or (meta_max_emp meta) 1
                       /\ altura it = get_or (meta_altura meta) (5 # 10)) l).
  { exists []. rewrite app_nil_r. repeat split; [cbn; lia|constructor]. }
  destruct (q <=? 0) eqn:Eq; [exact Hnil|]. apply Z.leb_gt in Eq.
  destruct (dict_get slug (slugs_de cat)) as [n|] eqn:En; [|exact Hnil].
  destruct (String.eqb n "") eqn:Ee; [exact Hnil|].
  destruct (slugs_de_some cat slug n En) as [Hin Hs].
  apply dict_get_keys in Hin. destruct Hin as [meta Em]. rewrite Em.
  eexists [_]. split; [reflexivity|]. split; [cbn; lia|].
  constructor; [|constructor]. cbn [nome qtd m3 empilhavel max_emp altura fst snd].
  repeat split; auto.
  - intros ->. rewrite String.eqb_refl in Ee. discriminate.
  - exists meta. auto.
Qed.

(** X14. Over any catalogue the loop of the normaliser raises nothing: the
    lookup of the catalogue by a name of the slug table always finds its
    key.  The output has at most one item for each entry of the request, and
    each item has a positive quantity, a non-empty name that is a key of
    the catalogue, and the volume, stacking flag, stack count and height of
    that key, with [False], 1 and 0.5 where the catalogue leaves them out.
    [calcular_itens] is that loop over [catalogo]. *)
Theorem normalizer_total_over_any_catalogue
  (cat : list (string * meta)) (d : list (string * Z)) :
  (exists l,
     for_each (calcular_passo cat (slugs_de cat)) d [] = Ret l
     /\ (List.length l <= List.length d)%nat
     /\ Forall (fun it =>
          0 < qtd it /\ nome it <> ""
          /\ exists meta,
               dict_get (nome it) cat = Some meta
               /\ m3 it = meta_m3 meta
               /\ empilhavel it = get_or (meta_empilhavel meta) false
               /\ max_emp it = get_or (meta_max_emp meta) 1
               /\ altura it = get_or (meta_altura meta) (5 # 10)) l)
  /\ calcular_itens d
     = for_each (calcular_passo catalogo (slugs_de catalogo)) d [].
Proof.
  split; [|reflexivity].
  assert (H : forall acc,
             exists l,
               for_each (calcular_passo cat (slugs_de cat)) d acc
                 = Ret (acc ++ l)
               /\ (List.length l <= List.length d)%nat
               /\ Forall (fun it =>
                    0 < qtd it /\ nome it <> ""
                    /\ exists meta,
                         dict_get (nome it) cat = Some meta
                         /\ m3 it = meta_m3 meta
                         /\ empilhavel it = get_or (meta_empilhavel meta) false
                         /\ max_emp it = get_or (meta_max_emp meta) 1
                         /\ altura it = get_or (meta_altura meta) (5 # 10)) l).
  { induction d as [|e r IH]; intros acc.
    - exists []. cbn. rewrite app_nil_r. repeat split; [lia|constructor].
    - destruct (calcular_passo_cat cat acc e) as (l1 & E1 & Hl1 & Hf1).
      cbn [for_each]. rewrite E1. cbn [bind].
      destruct (IH (acc ++ l1)) as (l2 & E2 & Hl2 & Hf2).
      exists (l1 ++ l2). rewrite E2, app_assoc. split; [reflexivity|].
      split; [rewrite length_app; cbn [List.length]; lia|].
      apply Forall_app. split; [|exact Hf2].
      eapply Forall_impl; [|exact Hf1]. cbn. intros it H. tauto. }
  destruct (H []) as (l & E & Hl & Hf). exists l. auto.
Qed.

(** * Properties of the sort and of the list for the UI *)

Section Ordenacao.
Context {A : Type} (lt : A -> A -> bool).
Hypothesis lt_asym : forall x y, lt x y = true -> lt y x = false.

(** [a] may stand before [b]: [b] is not less than [a]. *)
Let antes (a b : A) : Prop := lt b a = false.

Lemma insert_perm (x : A) (l : list A) : Permutation (insert lt x l) (x :: l).
Proof.
  induction l as [|y r IH]; cbn [insert]; [apply Permutation_refl|].
  destruct (lt y x); [|apply Permutation_refl].
  apply perm_trans with (y :: x :: r); [now apply perm_skip|apply perm_swap].
Qed.

Lemma py_sorted_perm (l : list A) : Permutation (py_sorted lt l) l.
Proof.
  induction l as [|x r IH]; cbn [py_sorted]; [apply perm_nil|].
  apply perm_trans with (x :: py_sorted lt r);
    [apply insert_perm|now apply perm_skip].
Qed.

Lemma insert_hd (x y : A) (l : list A) :
  lt y x = true -> HdRel antes y l -> HdRel antes y (insert lt x l).
Proof.
  intros Hyx Hl. destruct l as [|z r]; cbn [insert].
  - constructor. now apply lt_asym.
  - inversion Hl; subst. destruct (lt z x); constructor; auto.
    now apply lt_asym.
Qed.

Lemma insert_sorted (x : A) (l : list A) :
  Sorted antes l -> Sorted antes (insert lt x l).
Proof.
  induction l as [|y r IH]; intros Hs; cbn [insert].
  - repeat constructor.
  - inversion Hs as [|? ? Hr Hhd]; subst. destruct (lt y x) eqn:E.
    + constructor; [now apply IH|now apply insert_hd].
    + constructor; [exact Hs|]. constructor. exact E.
Qed.

Lemma py_sorted_sorted (l : list A) : Sorted antes (py_sorted lt l).
Proof.
  induction l as [|x r IH]; cbn [py_sorted]; [constructor|].
  now apply insert_sorted.
Qed.

Lemma py_sorted_id (l : list A) : Sorted antes l -> py_sorted lt l = l.
Proof.
  induction l as [|x r IH]; intros Hs; [reflexivity|].
  inversion Hs as [|? ? Hr Hhd]; subst. cbn [py_sorted]. rewrite (IH Hr).
  destruct r as [|y r']; [reflexivity|]. inversion Hhd; subst.
  cbn [insert]. unfold antes in *. now rewrite H0.
Qed.

End Ordenacao.

Lemma string_ltb_asym (x y : string) :
  String.ltb x y = true -> String.ltb y x = false.
Proof.
  unfold String.ltb. rewrite (String.compare_antisym y x).
  now destruct (String.compare x y).
Qed.

Lemma string_ltb_leb (x y : string) :
  String.ltb y x = false <-> String.leb x y = true.
Proof.
  unfold String.ltb, String.leb. rewrite (String.compare_antisym y x).
  destruct (String.compare x y); cbn; split; congruence.
Qed.

(** X15. The list for the UI, over any catalogue: it has the keys of the
    catalogue, each once as the catalogue has them, in non-decreasing order
    of name; the slug of each entry is the slug of its name; sorting it again
    changes nothing.  [itens_ui] is that list for [catalogo]. *)
Theorem ui_list_is_the_catalogue_sorted_by_name (cat : list (string * meta)) :
  Permutation (map ui_nome (itens_ui_de cat)) (keys cat)
  /\ Sorted (fun a b => String.leb (ui_nome a) (ui_nome b) = true)
       (itens_ui_de cat)
  /\ Forall (fun u => ui_slug u = slugify (ui_nome u)) (itens_ui_de cat)
  /\ py_sorted (fun x y => String.ltb (ui_nome x) (ui_nome y)) (itens_ui_de cat)
     = itens_ui_de cat
  /\ itens_ui = itens_ui_de catalogo.
Proof.
  set (lt := fun x y : item_ui => String.ltb (ui_nome x) (ui_nome y)).
  assert (Hasym : forall x y, lt x y = true -> lt y x = false).
  { intros x y. apply string_ltb_asym. }
  set (mk := fun '(nome, meta) =>
               {| ui_nome := nome;
                  ui_slug := slugify nome;
                  ui_m3 := meta_m3 meta;
                  ui_empilhavel := get_or (meta_empilhavel meta) false;
                  ui_max_emp := get_or (meta_max_emp meta) 1;
                  ui_altura := get_or (meta_altura meta) (5 # 10) |}).
  change (itens_ui_de cat) with (py_sorted lt (map mk cat)).
  pose proof (py_sorted_perm lt (map mk cat)) as Hp.
  pose proof (py_sorted_sorted lt Hasym (map mk cat)) as Hs.
  split; [|split; [|split; [|split]]].
  - apply perm_trans with (map ui_nome (map mk cat)).
    + now apply Permutation_map.
    + rewrite map_map. unfold keys.
      erewrite map_ext; [apply Permutation_refl|]. now intros [n m].
  - eapply Sorted_ind with (P := fun l =>
      Sorted (fun a b => String.leb (ui_nome a) (ui_nome b) = true) l);
      [constructor| |exact Hs].
    intros a l _ IH Hhd. constructor; [exact IH|].
    destruct Hhd; constructor. now apply string_ltb_leb.
  - apply Forall_forall. intros u Hu.
    apply (Permutation_in _ Hp) in Hu. apply in_map_iff in Hu.
    destruct Hu as ([n m] & <- & _). reflexivity.
  - now apply py_sorted_id.
  - reflexivity.
Qed.

(** * Properties of the slugs *)

Lemma slugc_fatos (c : ascii) :
  slugc c = true ->
  Str.isspace c = false /\ Str.lower_char c = c /\ slug_char c = true
  /\ Ascii.eqb c "/" = false /\ Ascii.eqb c "-" = false
  /\ Ascii.eqb c " " = false.
Proof.
  destruct c as [[] [] [] [] [] [] [] []]; vm_compute; intros H;
    try discriminate H; repeat split.
Qed.

Lemma troca_fatos (c : ascii) :
  slug_char c = true ->
  let c1 := if Ascii.eqb c "/" then " "%char else c in
  let c2 := if Ascii.eqb c1 "-" then " "%char else c1 in
  slugc c2 || Str.isspace c2 = true.
Proof.
  destruct c as [[] [] [] [] [] [] [] []]; vm_compute; intros H;
    try discriminate H; reflexivity.
Qed.

Lemma isspace_lower (c : ascii) : Str.isspace (Str.lower_char c) = Str.isspace c.
Proof.
  destruct c as [[] [] [] [] [] [] [] []]; vm_compute; reflexivity.
Qed.

Lemma lower_lower (c : ascii) :
  Str.lower_char (Str.lower_char c) = Str.lower_char c.
Proof.
  destruct c as [[] [] [] [] [] [] [] []]; vm_compute; reflexivity.
Qed.

Section Strip.
Variable p : ascii -> bool.

Lemma dropwhile_Forall (P : ascii -> Prop) (l : list ascii) :
  Forall P l -> Forall P (Str.dropwhile p l).
Proof.
  induction 1 as [|x r Hx Hr IH]; cbn [Str.dropwhile]; [constructor|].
  destruct (p x); [exact IH|now constructor].
Qed.

Lemma dropwhile_hd (l : list ascii) (x : ascii) (r : list ascii) :
  Str.dropwhile p l = x :: r -> p x = false.
Proof.
  induction l as [|y t IH]; cbn [Str.dropwhile]; [discriminate|].
  destruct (p y) eqn:E; [exact IH|]. intros [= <- _]. exact E.
Qed.

Lemma dropwhile_idem (l : list ascii) :
  Str.dropwhile p (Str.dropwhile p l) = Str.dropwhile p l.
Proof.
  induction l as [|y t IH]; cbn [Str.dropwhile]; [reflexivity|].
  destruct (p y) eqn:E; [exact IH|]. cbn [Str.dropwhile]. now rewrite E.
Qed.

Lemma dropwhile_snoc (l : list ascii) (x : ascii) :
  p x = false -> Str.dropwhile p (l ++ [x]) = Str.dropwhile p l ++ [x].
Proof.
  intros Hx. induction l as [|y t IH]; cbn [app Str.dropwhile].
  - now rewrite Hx.
  - destruct (p y); [exact IH|reflexivity].
Qed.

Lemma dropwhile_length (l : list ascii) :
  (List.length (Str.dropwhile p l) <= List.length l)%nat.
Proof.
  induction l as [|y t IH]; cbn [Str.dropwhile List.length]; [lia|].
  destruct (p y); cbn [List.length]; lia.
Qed.

Lemma dropwhile_nenhum (l : list ascii) :
  Forall (fun c => p c = false) l -> Str.dropwhile p l = l.
Proof.
  destruct 1 as [|x r Hx Hr]; cbn [Str.dropwhile]; [reflexivity|].
  now rewrite Hx.
Qed.

(** What [strip] leaves: nothing to drop at either end. *)
Lemma strip_by_pontas (l : list ascii) :
  Str.dropwhile p (Str.strip_by p l) = Str.strip_by p l
  /\ Str.dropwhile p (rev (Str.strip_by p l)) = rev (Str.strip_by p l).
Proof.
  unfold Str.strip_by. rewrite rev_involutive. split; [|apply dropwhile_idem].
  destruct (Str.dropwhile p l) as [|x t] eqn:E; [reflexivity|].
  pose proof (dropwhile_hd _ _ _ E) as Hx. cbn [rev].
  rewrite (dropwhile_snoc _ _ Hx), rev_app_distr. cbn [rev app Str.dropwhile].
  now rewrite Hx.
Qed.

Lemma strip_by_idem (l : list ascii) :
  Str.strip_by p (Str.strip_by p l) = Str.strip_by p l.
Proof.
  destruct (strip_by_pontas l) as [H1 H2].
  unfold Str.strip_by at 1. rewrite H1, H2. apply rev_involutive.
Qed.

Lemma strip_by_Forall (P : ascii -> Prop) (l : list ascii) :
  Forall P l -> Forall P (Str.strip_by p l).
Proof.
  intros H. unfold Str.strip_by. apply Forall_rev. apply dropwhile_Forall.
  apply Forall_rev. now apply dropwhile_Forall.
Qed.

Lemma strip_by_nenhum (l : list ascii) :
  Forall (fun c => p c = false) l -> Str.strip_by p l = l.
Proof.
  intros H. unfold Str.strip_by. rewrite (dropwhile_nenhum l H).
  rewrite dropwhile_nenhum by now apply Forall_rev.
  apply rev_involutive.
Qed.

(** A list that [strip] leaves alone has no such character at its ends. *)
Lemma strip_by_fixo_pontas (l : list ascii) :
  Str.strip_by p l = l ->
  (forall c r, p c = true -> l <> c :: r)
  /\ (forall c r, p c = true -> l <> r ++ [c]).
Proof.
  intros Hfix. destruct (strip_by_pontas l) as [H1 H2].
  rewrite Hfix in H1, H2. split.
  - intros c r Hc ->. cbn [Str.dropwhile] in H1. rewrite Hc in H1.
    pose proof (dropwhile_length r) as Hl. rewrite H1 in Hl.
    cbn [List.length] in Hl. lia.
  - intros c r Hc ->. rewrite rev_app_distr in H2.
    cbn [rev app Str.dropwhile] in H2. rewrite Hc in H2.
    pose proof (dropwhile_length (rev r)) as Hl. rewrite H2 in Hl.
    cbn [List.length] in Hl. lia.
Qed.

End Strip.

Lemma dropwhile_map (p : ascii -> bool) (f : ascii -> ascii) (l : list ascii) :
  (forall c, p (f c) = p c) ->
  Str.dropwhile p (map f l) = map f (Str.dropwhile p l).
Proof.
  intros Hpf. induction l as [|x r IH]; cbn [map Str.dropwhile]; [reflexivity|].
  rewrite Hpf. destruct (p x); [exact IH|reflexivity].
Qed.

Lemma strip_by_map (p : ascii -> bool) (f : ascii -> ascii) (l : list ascii) :
  (forall c, p (f c) = p c) ->
  Str.strip_by p (map f l) = map f (Str.strip_by p l).
Proof.
  intros Hpf. unfold Str.strip_by.
  rewrite (dropwhile_map p f l Hpf), <- map_rev.
  rewrite (dropwhile_map p f _ Hpf), <- map_rev. reflexivity.
Qed.

Lemma replace_2sp_Forall (P : ascii -> Prop) (l : list ascii) :
  Forall P l -> Forall P (Str.replace_2sp l).
Proof.
  assert (H : forall n l, (List.length l <= n)%nat ->
                Forall P l -> Forall P (Str.replace_2sp l)).
  { intros n. induction n as [|n IH]; intros l0 Hn Hl.
    - destruct l0; [constructor|cbn in Hn; lia].
    - destruct l0 as [|a t]; [constructor|]. cbn [Str.replace_2sp].
      inversion Hl as [|? ? Ha Ht]; subst. cbn [List.length] in Hn.
      destruct t as [|b r]; [now repeat constructor|].
      inversion Ht as [|? ? Hb Hr]; subst. cbn [List.length] in Hn.
      destruct (Ascii.eqb a " " && Ascii.eqb b " ") eqn:E.
      + apply andb_true_iff in E. destruct E as [Ea _].
        apply Ascii.eqb_eq in Ea. subst a.
        constructor; [exact Ha|]. apply IH; [lia|exact Hr].
      + constructor; [exact Ha|]. apply IH; [cbn [List.length]; lia|exact Ht]. }
  intros Hl. exact (H (List.length l) l (le_n _) Hl).
Qed.

Lemma replace_2sp_nenhum (l : list ascii) :
  Forall (fun c => Ascii.eqb c " " = false) l -> Str.replace_2sp l = l.
Proof.
  induction 1 as [|a t Ha Ht IH]; [reflexivity|]. cbn [Str.replace_2sp].
  destruct t as [|b r]; [reflexivity|]. rewrite Ha. cbn [andb].
  now rewrite IH.
Qed.

Lemma sub_spaces_slugc (l : list ascii) :
  Forall (fun c => slugc c || Str.isspace c = true) l ->
  forall b, Forall (fun c => slugc c = true) (Str.sub_spaces b l).
Proof.
  induction 1 as [|c r Hc Hr IH]; intros b; cbn [Str.sub_spaces];
    [constructor|].
  destruct (Str.isspace c) eqn:E.
  - destruct b; [apply IH|]. constructor; [reflexivity|apply IH].
  - constructor; [|apply IH]. now rewrite orb_false_r in Hc.
Qed.

Lemma sub_spaces_nenhum (l : list ascii) :
  Forall (fun c => Str.isspace c = false) l ->
  forall b, Str.sub_spaces b l = l.
Proof.
  induction 1 as [|c r Hc Hr IH]; intros b; cbn [Str.sub_spaces];
    [reflexivity|].
  rewrite Hc. now rewrite IH.
Qed.

Lemma filter_todos {A : Type} (f : A -> bool) (l : list A) :
  Forall (fun x => f x = true) l -> filter f l = l.
Proof.
  induction 1 as [|x r Hx Hr IH]; cbn [filter]; [reflexivity|].
  now rewrite Hx, IH.
Qed.

Lemma map_fixo {A : Type} (f : A -> A) (l : list A) :
  Forall (fun x => f x = x) l -> map f l = l.
Proof.
  induction 1 as [|x r Hx Hr IH]; cbn [map]; [reflexivity|].
  now rewrite Hx, IH.
Qed.

(** The slug of any text, as a list of characters. *)
Lemma slugify_saida (s : string) :
  exists o,
    slugify s = string_of_list_ascii o
    /\ Forall (fun c => slugc c = true) o
    /\ Str.strip_by (fun c => Ascii.eqb c "_") o = o.
Proof.
  unfold slugify, remove_acentos. eexists. split; [reflexivity|]. split.
  - apply strip_by_Forall. apply sub_spaces_slugc. apply replace_2sp_Forall.
    unfold Str.replace1. rewrite map_map. apply Forall_map.
    apply Forall_forall. intros c Hc. apply filter_In in Hc.
    destruct Hc as [_ Hc]. exact (troca_fatos c Hc).
  - apply strip_by_idem.
Qed.

(** A list of slug characters with no underscore to strip is its own slug. *)
Lemma slugify_fixo (o : list ascii) :
  Forall (fun c => slugc c = true) o ->
  Str.strip_by (fun c => Ascii.eqb c "_") o = o ->
  slugify (string_of_list_ascii o) = string_of_list_ascii o.
Proof.
  intros Ho Hfix.
  assert (F : forall P : ascii -> Prop,
             (forall c, slugc c = true -> P c) -> Forall P o).
  { intros P HP. eapply Forall_impl; [|exact Ho]. exact HP. }
  unfold slugify, remove_acentos.
  rewrite !list_ascii_of_string_of_list_ascii.
  rewrite (strip_by_nenhum Str.isspace)
    by (apply F; intros c Hc; apply slugc_fatos, Hc).
  rewrite map_fixo by (apply F; intros c Hc; apply slugc_fatos, Hc).
  rewrite filter_todos by (apply F; intros c Hc; apply slugc_fatos, Hc).
  unfold Str.replace1.
  rewrite (map_fixo (fun c => if Ascii.eqb c "/" then " "%char else c))
    by (apply F; intros c Hc;
        destruct (slugc_fatos c Hc) as (_ & _ & _ & -> & _); reflexivity).
  rewrite (map_fixo (fun c => if Ascii.eqb c "-" then " "%char else c))
    by (apply F; intros c Hc;
        destruct (slugc_fatos c Hc) as (_ & _ & _ & _ & -> & _); reflexivity).
  rewrite replace_2sp_nenhum by (apply F; intros c Hc; apply slugc_fatos, Hc).
  rewrite sub_spaces_nenhum by (apply F; intros c Hc; apply slugc_fatos, Hc).
  now rewrite Hfix.
Qed.

(** X16. The slug of any text is made of lower-case letters, digits and
    underscores, and neither starts nor ends with an underscore. *)
Theorem slug_characters_and_ends (s : string) :
  Forall (fun c => slugc c = true) (chars (slugify s))
  /\ (forall r, chars (slugify s) <> "_"%char :: r)
  /\ (forall r, chars (slugify s) <> r ++ ["_"%char]).
Proof.
  destruct (slugify_saida s) as (o & -> & Ho & Hfix). unfold chars.
  rewrite list_ascii_of_string_of_list_ascii. split; [exact Ho|].
  destruct (strip_by_fixo_pontas _ o Hfix) as [H1 H2]. split.
  - intros r. now apply H1.
  - intros r. now apply H2.
Qed.

(** X17. [slugify] is idempotent, and the texts it leaves as they are
    are the texts of lower-case letters, digits and underscores with no
    underscore at either end. *)
Theorem slugify_idempotent_and_fixed_points :
  (forall s, slugify (slugify s) = slugify s)
  /\ (forall s,
        slugify s = s <->
        Forall (fun c => slugc c = true) (chars s)
        /\ Str.strip_by (fun c => Ascii.eqb c "_") (chars s) = chars s).
Proof.
  split.
  - intros s. destruct (slugify_saida s) as (o & -> & Ho & Hfix).
    now apply slugify_fixo.
  - intros s. unfold chars. split.
    + intros E. destruct (slugify_saida s) as (o & Eo & Ho & Hfix).
      rewrite E in Eo. subst s.
      now rewrite list_ascii_of_string_of_list_ascii.
    + intros [Ho Hfix]. pose proof (slugify_fixo _ Ho Hfix) as E.
      now rewrite string_of_list_ascii_of_string in E.
Qed.

(** X18. [slugify] ignores the case of ASCII letters and the white space
    around the text: texts that are equal once in lower case have the same
    slug, and so have a text and the text stripped. *)
Theorem slugify_ignores_case_and_outer_space :
  (forall s t, lower s = lower t -> slugify s = slugify t)
  /\ (forall s, slugify (lower s) = slugify s)
  /\ (forall s, slugify (Str.strip s) = slugify s).
Proof.
  assert (Hl : forall s,
             map Str.lower_char (Str.strip_by Str.isspace (list_ascii_of_string s))
             = Str.strip_by Str.isspace (chars (lower s))).
  { intros s. unfold lower, chars.
    rewrite list_ascii_of_string_of_list_ascii.
    symmetry. apply strip_by_map. exact isspace_lower. }
  assert (H1 : forall s t, lower s = lower t -> slugify s = slugify t).
  { intros s t E. unfold slugify. now rewrite !Hl, E. }
  split; [exact H1|]. split.
  - intros s. apply H1. unfold lower, chars.
    rewrite list_ascii_of_string_of_list_ascii, map_map.
    f_equal. apply map_ext. exact lower_lower.
  - intros s. unfold slugify, Str.strip.
    now rewrite list_ascii_of_string_of_list_ascii, strip_by_idem.
Qed.

Example slugify_maiusculas : slugify "  Caixa  MEDIA " = "caixa_media".
Proof. vm_compute. reflexivity. Qed.

(** * Properties of the route handler *)



(** A form that selects nothing: a box is suggested, and the details are a
    dash. *)
Example pagina_sem_itens :
  index int_decimal ex_boxes POST [("qty_sofa", "0"); ("qty_tv", "x")]
    = Ret (Some (ResultadoBox (0 # 100) 0 box_B), Some DetalhesTraco).
Proof. vm_compute. reflexivity. Qed.

(** * The estimator and the selector over floats *)

(** ** The order of the floats *)

Lemma F64_ltb_irrefl (x : F64.float) : F64.ltb x x = false.
Proof.
  unfold F64.ltb, SFltb, SFcompare.
  destruct x as [s|s| |s m e]; try (destruct s); try reflexivity;
    rewrite Z.compare_refl;
    change (Pos.compare_cont Eq m m) with (Pos.compare m m);
    now rewrite Pos.compare_refl.
Qed.

Lemma F64_ltb_trans (x y z : F64.float) :
  F64.ltb x y = true -> F64.ltb y z = true -> F64.ltb x z = true.
Proof.
  unfold F64.ltb, SFltb, SFcompare.
  destruct x as [sx|sx| |sx mx ex], y as [sy|sy| |sy my ey],
    z as [sz|sz| |sz mz ez];
    try (destruct sx); try (destruct sy); try (destruct sz);
    try reflexivity; try discriminate;
    change (Pos.compare_cont Eq mx my) with (Pos.compare mx my);
    change (Pos.compare_cont Eq my mz) with (Pos.compare my mz);
    change (Pos.compare_cont Eq mx mz) with (Pos.compare mx mz);
    destruct (Z.compare_spec ex ey), (Z.compare_spec ey ez),
      (Z.compare_spec ex ez);
    try discriminate; try reflexivity; try lia;
    destruct (Pos.compare_spec mx my), (Pos.compare_spec my mz),
      (Pos.compare_spec mx mz);
    cbn; try discriminate; try reflexivity; lia.
Qed.

Lemma F64_py_max_cases (a b : F64.float) :
  F64.py_max a b = a \/ F64.py_max a b = b.
Proof. unfold F64.py_max. destruct (F64.ltb a b); auto. Qed.

Lemma F64_py_max_l (a b c : F64.float) :
  F64.ltb a c = false -> F64.ltb b c = false ->
  F64.ltb (F64.py_max a b) c = false.
Proof. unfold F64.py_max. now destruct (F64.ltb a b). Qed.

Lemma F64_ltb_asym (x y : F64.float) :
  F64.ltb x y = true -> F64.ltb y x = false.
Proof.
  intros H. destruct (F64.ltb y x) eqn:E; [|reflexivity].
  pose proof (F64_ltb_trans _ _ _ H E) as Hxx.
  now rewrite F64_ltb_irrefl in Hxx.
Qed.

(** The running maximum is its start, or one of the values and greater
    than the start; none of the values is greater than it. *)
Lemma F64_maximo_spec (hs : list F64.float) :
  forall m,
    (F64.maximo m hs = m
     \/ (In (F64.maximo m hs) hs /\ F64.ltb m (F64.maximo m hs) = true))
    /\ forall h, In h hs -> F64.ltb (F64.maximo m hs) h = false.
Proof.
  unfold F64.maximo. induction hs as [|x r IH]; intros m; cbn [fold_left].
  - split; [now left|intros h []].
  - destruct (IH (F64.py_max m x)) as (Hatt & Hall).
    set (P := fold_left F64.py_max r (F64.py_max m x)) in *.
    unfold F64.py_max in Hatt. destruct (F64.ltb m x) eqn:E.
    + split.
      * right. destruct Hatt as [->|[Hin Hlt]].
        -- split; [now left|exact E].
        -- split; [now right|exact (F64_ltb_trans _ _ _ E Hlt)].
      * intros h [<-|Hh]; [|now apply Hall].
        destruct Hatt as [->|[_ Hlt]];
          [apply F64_ltb_irrefl|now apply F64_ltb_asym].
    + split.
      * destruct Hatt as [->|[Hin Hlt]]; [now left|].
        right. split; [now right|exact Hlt].
      * intros h [<-|Hh]; [|now apply Hall].
        destruct Hatt as [->|[_ Hlt]]; [exact E|].
        destruct (F64.ltb P x) eqn:E'; [|reflexivity].
        now rewrite (F64_ltb_trans _ _ _ Hlt E') in E.
Qed.

(** ** The loop of the estimator *)

Lemma F64_loop_passo it resto H t m d f :
  F64.volume_loop (it :: resto) H t m d f =
    match F64.parcela H it with
    | Raise e => Raise e
    | Ret None => Ret (F64.NaoCabe (F64.nome it) (F64.altura it) H)
    | Ret (Some p) =>
        F64.volume_loop resto H (F64.add t (F64.p_vol p))
          (F64.py_max m (F64.p_alt p)) (d ++ [F64.p_det p]) f
    end.
Proof.
  cbn [F64.volume_loop]. unfold F64.parcela.
  destruct (F64.empilhavel it).
  - destruct (F64.floordiv_int H (F64.altura it)) as [c|e]; [|reflexivity].
    cbn [bind]. destruct (Z.min c (F64.max_emp it) <? 1); [reflexivity|].
    destruct (F64.ceil_truediv (F64.qtd it) (Z.min c (F64.max_emp it)))
      as [pilhas|e]; [|reflexivity].
    cbn [bind]. destruct (F64.imul pilhas (F64.m3 it)) as [v|e]; [|reflexivity].
    cbn [bind].
    destruct (F64.imul (Z.min (Z.min c (F64.max_emp it)) (F64.qtd it))
                (F64.altura it)) as [a|e]; reflexivity.
  - destruct (F64.imul (F64.qtd it) (F64.m3 it)) as [v|e]; reflexivity.
Qed.

Lemma F64_loop_estimado H f itens ps :
  parcelas64 H itens ps ->
  forall t m d,
    F64.volume_loop itens H t m d f
      = Ret (F64.Estimado
               (F64.mul (F64.soma t (map F64.p_vol ps)) (F64.add F64.one f))
               (F64.maximo m (map F64.p_alt ps))
               (d ++ map F64.p_det ps)).
Proof.
  induction 1 as [|it p itens ps Hp Hr IH]; intros t m d.
  - cbn. now rewrite app_nil_r.
  - rewrite F64_loop_passo, Hp, IH. cbn [map F64.soma F64.maximo fold_left].
    now rewrite <- app_assoc.
Qed.

Lemma F64_loop_estimado_inv H f itens :
  forall t m d T P det,
    F64.volume_loop itens H t m d f = Ret (F64.Estimado T P det) ->
    exists ps,
      parcelas64 H itens ps
      /\ T = F64.mul (F64.soma t (map F64.p_vol ps)) (F64.add F64.one f)
      /\ P = F64.maximo m (map F64.p_alt ps)
      /\ det = d ++ map F64.p_det ps.
Proof.
  induction itens as [|it r IH]; intros t m d T P det E.
  - cbn in E. injection E as <- <- <-. exists []. cbn.
    rewrite app_nil_r. repeat split. constructor.
  - rewrite F64_loop_passo in E.
    destruct (F64.parcela H it) as [[p|]|e] eqn:Ep; try discriminate.
    destruct (IH _ _ _ _ _ _ E) as (ps & Hps & -> & -> & ->).
    exists (p :: ps). split; [now constructor|].
    cbn [map F64.soma F64.maximo fold_left]. rewrite <- app_assoc.
    repeat split.
Qed.

(** The loop stops at the first item that does not fit, or whose
    operations raise. *)
Lemma F64_loop_para H f pre it post ps :
  parcelas64 H pre ps ->
  forall t m d,
    F64.volume_loop (pre ++ it :: post) H t m d f =
      match F64.parcela H it with
      | Raise e => Raise e
      | Ret None => Ret (F64.NaoCabe (F64.nome it) (F64.altura it) H)
      | Ret (Some p) =>
          F64.volume_loop post H
            (F64.add (F64.soma t (map F64.p_vol ps)) (F64.p_vol p))
            (F64.py_max (F64.maximo m (map F64.p_alt ps)) (F64.p_alt p))
            ((d ++ map F64.p_det ps) ++ [F64.p_det p]) f
      end.
Proof.
  induction 1 as [|x p0 pre ps Hp Hr IH]; intros t m d; cbn [app].
  - rewrite F64_loop_passo. cbn. now rewrite app_nil_r.
  - rewrite F64_loop_passo, Hp, IH. cbn [map F64.soma F64.maximo fold_left].
    now rewrite <- !app_assoc.
Qed.

(** What has come out of the loop, whatever it is, says where it stopped. *)
Lemma F64_loop_inv H f itens :
  forall t m d r,
    F64.volume_loop itens H t m d f = r ->
    (exists ps, parcelas64 H itens ps)
    \/ exists pre it post ps,
         itens = pre ++ it :: post /\ parcelas64 H pre ps
         /\ ((F64.parcela H it = Ret None
              /\ r = Ret (F64.NaoCabe (F64.nome it) (F64.altura it) H))
             \/ exists e, F64.parcela H it = Raise e /\ r = Raise e).
Proof.
  induction itens as [|it rs IH]; intros t m d r E.
  - left. exists []. constructor.
  - rewrite F64_loop_passo in E.
    destruct (F64.parcela H it) as [[p|]|e] eqn:Ep.
    + destruct (IH _ _ _ _ E) as [[ps Hps]|(pre & x & post & ps & -> & Hps & Hx)].
      * left. exists (p :: ps). now constructor.
      * right. exists (it :: pre), x, post, (p :: ps).
        split; [reflexivity|]. split; [now constructor|exact Hx].
    + right. exists [], it, rs, []. split; [reflexivity|].
      split; [constructor|]. left. auto.
    + right. exists [], it, rs, []. split; [reflexivity|].
      split; [constructor|]. right. eauto.
Qed.

Lemma parcelas64_app H l1 l2 ps :
  parcelas64 H (l1 ++ l2) ps ->
  exists p1 p2, ps = p1 ++ p2 /\ parcelas64 H l1 p1 /\ parcelas64 H l2 p2.
Proof.
  unfold parcelas64. intros Hf. apply Forall2_app_inv_l in Hf.
  destruct Hf as (p1 & p2 & H1 & H2 & ->). eauto.
Qed.

Lemma parcelas64_fun H itens ps ps' :
  parcelas64 H itens ps -> parcelas64 H itens ps' -> ps = ps'.
Proof.
  intros H1. revert ps'. induction H1 as [|it p itens ps Hp Hr IH];
    intros ps' H2; inversion H2; subst; [reflexivity|].
  f_equal; [congruence|now apply IH].
Qed.

Lemma F64_estimado_iff H f itens T P det :
  F64.volume_para_box itens H f = Ret (F64.Estimado T P det) <->
  exists ps, parcelas64 H itens ps /\ F64.Estimado T P det = estimado64 f ps.
Proof.
  unfold F64.volume_para_box, estimado64. split.
  - intros E. destruct (F64_loop_estimado_inv _ _ _ _ _ _ _ _ _ E)
      as (ps & Hps & -> & -> & ->).
    exists ps. split; [exact Hps|reflexivity].
  - intros (ps & Hps & ->). now rewrite (F64_loop_estimado H f itens ps Hps).
Qed.
